(** * Metronome: the lookahead beat scheduler of [src/app/components/Metronome.tsx]

    A shallow embedding of the React component [Metronome]: its [useState]
    cells, its [useRef] cells, the closures a render captures, and the host's
    timer table, with the event handlers, the effects and the scheduler as
    functions on that state.

    JavaScript numbers that carry time, gain or frequency are kept abstract
    behind the class [JsNumber], with two instances: IEEE-754 binary64
    ([float], what the browser computes) and exact rationals ([Q], the
    arithmetic the doubles approximate, on which the general theorems are
    proved).  Integer-valued numbers (tempo, beat indices, lengths) are [Z].

    The last part of the definitions covers the workspace the metronome
    sits in: the history list written by [Workspace.tsx] and the loop
    handles of the control panel. *)

From Stdlib Require Import ZArith QArith Qround Qabs List Bool Lia Lqa.
From Stdlib Require String.
Import String.StringSyntax.
Delimit Scope string_scope with string.
From Stdlib Require Import Floats.
Import ListNotations.

(** ** JavaScript numbers *)

Class JsNumber (num : Type) : Type := {
  of_Z  : Z -> num;                 (* an integer literal or integer value *)
  add   : num -> num -> num;
  sub   : num -> num -> num;
  mul   : num -> num -> num;
  div   : num -> num -> num;
  ltb   : num -> num -> bool;       (* [a < b]; [a > b] is [ltb b a] *)
  exact : num -> option Q           (* the value, [None] for NaN and the infinities *)
}.

(** A decimal literal [n/d] such as [0.05]: the double nearest to the
    quotient, which is what a correctly rounded division of [n] by [d]
    returns. *)
Definition lit {num} `{JsNumber num} (n d : Z) : num := div (of_Z n) (of_Z d).

(** [Math.round]: the nearest integer, ties towards +infinity; NaN and the
    infinities are returned as they are ([None]). *)
Definition Math_round {num} `{JsNumber num} (x : num) : option Z :=
  match exact x with
  | Some q => Some (Qfloor (q + (1 # 2)))
  | None => None
  end.

(** Exact rationals.  [Qdiv] gives [x / 0 = 0] where JavaScript gives an
    infinity or NaN; the two places that can divide by zero are discussed
    where they occur ([nextNote], [handleTap]). *)
#[export] Instance QNumber : JsNumber Q := {|
  of_Z := inject_Z;
  add := Qplus;
  sub := Qminus;
  mul := Qmult;
  div := Qdiv;
  ltb := fun a b => negb (Qle_bool b a);
  exact := fun q => Some q
|}.

(** IEEE-754 binary64. *)
Definition float_of_Z (z : Z) : float :=
  match z with
  | Z0 => PrimFloat.zero
  | Zpos _ => PrimFloat.of_uint63 (Uint63.of_Z z)
  | Zneg p => PrimFloat.opp (PrimFloat.of_uint63 (Uint63.of_Z (Zpos p)))
  end.

Definition float_exact (f : float) : option Q :=
  match Prim2SF f with
  | S754_zero _ => Some 0
  | S754_finite sgn m e =>
      let mag := if (0 <=? e)%Z then inject_Z (Zpos m * 2 ^ e)
                 else Zpos m # Z.to_pos (2 ^ (- e)) in
      Some (Qred (if sgn then - mag else mag))
  | S754_infinity _ | S754_nan => None
  end.

#[export] Instance FloatNumber : JsNumber float := {|
  of_Z := float_of_Z;
  add := PrimFloat.add;
  sub := PrimFloat.sub;
  mul := PrimFloat.mul;
  div := PrimFloat.div;
  ltb := PrimFloat.ltb;
  exact := float_exact
|}.

(** ** Data model *)

(** What a slot of a [BeatType[]] holds.  [type BeatType = 0 | 1 | 2]
    gives [Mute], [Normal] and [Accent].  [Hole] is the slot that a write
    past the end of the array leaves behind ([handleBeatClick] can make
    one): the type does not list it, the array holds it all the same, and it
    reads as [undefined]. *)
Inductive BeatType : Type := Mute | Normal | Accent | Hole.

Definition BeatType_eqb (a b : BeatType) : bool :=
  match a, b with
  | Mute, Mute | Normal, Normal | Accent, Accent | Hole, Hole => true
  | _, _ => false
  end.

(** A beat index as the code holds it: an integer, or [NaN] (what
    [x % 0] evaluates to). *)
Inductive JsIndex : Type := Int (z : Z) | NaN.

(** [a % b] on integers: the sign follows the dividend, [NaN] for [b = 0]. *)
Definition js_mod (a b : Z) : JsIndex :=
  if (b =? 0)%Z then NaN else Int (Z.rem a b).

(** [beatIndex >= pattern.length]; false for [NaN]. *)
Definition index_ge (i : JsIndex) (len : nat) : bool :=
  match i with
  | Int z => (Z.of_nat len <=? z)%Z
  | NaN => false
  end.

(** [pattern[beatIndex]]; [None] is [undefined]. *)
Definition js_get {A} (l : list A) (i : JsIndex) : option A :=
  match i with
  | Int z => if (z <? 0)%Z then None else nth_error l (Z.to_nat z)
  | NaN => None
  end.

(** What a render's closures ([scheduleNote], [nextNote], [scheduler])
    captured of the state: [bpm] and [isMuted] are read as plain variables,
    so their value is the one of the render that created the closure. *)
Record Render : Type := { r_bpm : Z; r_isMuted : bool }.

Definition Render_eqb (a b : Render) : bool :=
  (r_bpm a =? r_bpm b)%Z && Bool.eqb (r_isMuted a) (r_isMuted b).

Section Model.

Context {num : Type} `{JsNumber num}.

(** [interface ScheduledNote]. *)
Record ScheduledNote : Type := { time : num; beatIndex : JsIndex }.

(** One click handed to the audio graph by [scheduleNote]: the oscillator,
    its gain envelope and its start and stop times. *)
Record Oscillator : Type := {
  frequency : num;
  gain : num;
  rampTarget : num;
  rampEnd : num;
  startAt : num;
  stopAt : num
}.

(** The [AudioContext] as far as the component writes to it; its
    [currentTime] is an input of every step that reads it. *)
Record AudioContext : Type := { oscillators : list Oscillator }.

(** The [useState] cells. *)
Record State : Type := {
  isPlaying : bool;
  bpm : Z;
  isMuted : bool;
  beatPattern : list BeatType;
  activeBeatIndex : JsIndex;
  volume : num
}.

(** The [useRef] cells. *)
Record Refs : Type := {
  beatPatternRef : list BeatType;
  audioContextRef : option AudioContext;
  nextNoteTimeRef : num;
  currentBeatIndexRef : JsIndex;
  timerIDRef : option nat;
  notesQueue : list ScheduledNote;
  tapTimesRef : list num;
  lastTapRef : num;
  volumeRef : num
}.

(** What the last commit left behind: the dependencies of the memoised
    [scheduler] ([useCallback], deps [bpm, isMuted]) and the [isPlaying]
    the effects last ran with. *)
Record Memo : Type := { m_scheduler : Render; m_isPlaying : bool }.

(** The host: pending [setTimeout] callbacks (each is a [scheduler] closure,
    identified by the render it belongs to) and the next timer id. *)
Record Host : Type := { pendingTimers : list (nat * Render); nextTimerID : nat }.

Record Metronome : Type := {
  state : State;
  refs : Refs;
  memo : Memo;
  host : Host
}.

(** *** Field updates *)

Definition set_isPlaying (v : bool) (s : State) : State :=
  {| isPlaying := v; bpm := bpm s; isMuted := isMuted s; beatPattern := beatPattern s;
     activeBeatIndex := activeBeatIndex s; volume := volume s |}.
Definition setBpm (v : Z) (s : State) : State :=
  {| isPlaying := isPlaying s; bpm := v; isMuted := isMuted s; beatPattern := beatPattern s;
     activeBeatIndex := activeBeatIndex s; volume := volume s |}.
Definition setIsMuted (v : bool) (s : State) : State :=
  {| isPlaying := isPlaying s; bpm := bpm s; isMuted := v; beatPattern := beatPattern s;
     activeBeatIndex := activeBeatIndex s; volume := volume s |}.
Definition setBeatPattern (v : list BeatType) (s : State) : State :=
  {| isPlaying := isPlaying s; bpm := bpm s; isMuted := isMuted s; beatPattern := v;
     activeBeatIndex := activeBeatIndex s; volume := volume s |}.
Definition setActiveBeatIndex (v : JsIndex) (s : State) : State :=
  {| isPlaying := isPlaying s; bpm := bpm s; isMuted := isMuted s; beatPattern := beatPattern s;
     activeBeatIndex := v; volume := volume s |}.
Definition setVolume (v : num) (s : State) : State :=
  {| isPlaying := isPlaying s; bpm := bpm s; isMuted := isMuted s; beatPattern := beatPattern s;
     activeBeatIndex := activeBeatIndex s; volume := v |}.

Definition set_beatPatternRef (v : list BeatType) (r : Refs) : Refs :=
  {| beatPatternRef := v; audioContextRef := audioContextRef r;
     nextNoteTimeRef := nextNoteTimeRef r; currentBeatIndexRef := currentBeatIndexRef r;
     timerIDRef := timerIDRef r; notesQueue := notesQueue r; tapTimesRef := tapTimesRef r;
     lastTapRef := lastTapRef r; volumeRef := volumeRef r |}.
Definition set_audioContextRef (v : option AudioContext) (r : Refs) : Refs :=
  {| beatPatternRef := beatPatternRef r; audioContextRef := v;
     nextNoteTimeRef := nextNoteTimeRef r; currentBeatIndexRef := currentBeatIndexRef r;
     timerIDRef := timerIDRef r; notesQueue := notesQueue r; tapTimesRef := tapTimesRef r;
     lastTapRef := lastTapRef r; volumeRef := volumeRef r |}.
Definition set_nextNoteTimeRef (v : num) (r : Refs) : Refs :=
  {| beatPatternRef := beatPatternRef r; audioContextRef := audioContextRef r;
     nextNoteTimeRef := v; currentBeatIndexRef := currentBeatIndexRef r;
     timerIDRef := timerIDRef r; notesQueue := notesQueue r; tapTimesRef := tapTimesRef r;
     lastTapRef := lastTapRef r; volumeRef := volumeRef r |}.
Definition set_currentBeatIndexRef (v : JsIndex) (r : Refs) : Refs :=
  {| beatPatternRef := beatPatternRef r; audioContextRef := audioContextRef r;
     nextNoteTimeRef := nextNoteTimeRef r; currentBeatIndexRef := v;
     timerIDRef := timerIDRef r; notesQueue := notesQueue r; tapTimesRef := tapTimesRef r;
     lastTapRef := lastTapRef r; volumeRef := volumeRef r |}.
Definition set_timerIDRef (v : option nat) (r : Refs) : Refs :=
  {| beatPatternRef := beatPatternRef r; audioContextRef := audioContextRef r;
     nextNoteTimeRef := nextNoteTimeRef r; currentBeatIndexRef := currentBeatIndexRef r;
     timerIDRef := v; notesQueue := notesQueue r; tapTimesRef := tapTimesRef r;
     lastTapRef := lastTapRef r; volumeRef := volumeRef r |}.
Definition set_notesQueue (v : list ScheduledNote) (r : Refs) : Refs :=
  {| beatPatternRef := beatPatternRef r; audioContextRef := audioContextRef r;
     nextNoteTimeRef := nextNoteTimeRef r; currentBeatIndexRef := currentBeatIndexRef r;
     timerIDRef := timerIDRef r; notesQueue := v; tapTimesRef := tapTimesRef r;
     lastTapRef := lastTapRef r; volumeRef := volumeRef r |}.
Definition set_tapTimesRef (v : list num) (r : Refs) : Refs :=
  {| beatPatternRef := beatPatternRef r; audioContextRef := audioContextRef r;
     nextNoteTimeRef := nextNoteTimeRef r; currentBeatIndexRef := currentBeatIndexRef r;
     timerIDRef := timerIDRef r; notesQueue := notesQueue r; tapTimesRef := v;
     lastTapRef := lastTapRef r; volumeRef := volumeRef r |}.
Definition set_lastTapRef (v : num) (r : Refs) : Refs :=
  {| beatPatternRef := beatPatternRef r; audioContextRef := audioContextRef r;
     nextNoteTimeRef := nextNoteTimeRef r; currentBeatIndexRef := currentBeatIndexRef r;
     timerIDRef := timerIDRef r; notesQueue := notesQueue r; tapTimesRef := tapTimesRef r;
     lastTapRef := v; volumeRef := volumeRef r |}.
Definition set_volumeRef (v : num) (r : Refs) : Refs :=
  {| beatPatternRef := beatPatternRef r; audioContextRef := audioContextRef r;
     nextNoteTimeRef := nextNoteTimeRef r; currentBeatIndexRef := currentBeatIndexRef r;
     timerIDRef := timerIDRef r; notesQueue := notesQueue r; tapTimesRef := tapTimesRef r;
     lastTapRef := lastTapRef r; volumeRef := v |}.

Definition with_state (f : State -> State) (s : Metronome) : Metronome :=
  {| state := f (state s); refs := refs s; memo := memo s; host := host s |}.
Definition with_refs (f : Refs -> Refs) (s : Metronome) : Metronome :=
  {| state := state s; refs := f (refs s); memo := memo s; host := host s |}.
Definition set_memo (m : Memo) (s : Metronome) : Metronome :=
  {| state := state s; refs := refs s; memo := m; host := host s |}.
Definition set_host (h : Host) (s : Metronome) : Metronome :=
  {| state := state s; refs := refs s; memo := memo s; host := h |}.

(** ** The scheduler *)

Definition lookahead : num := of_Z 25.
Definition scheduleAheadTime : num := lit 1 10.

(** [scheduleNote(time, beatIndex)] of render [r]: the note is queued for
    the visualiser first; the click is synthesised unless the render is
    muted, there is no audio context, the index is past the pattern, or the
    slot is [Mute].  An [undefined] slot (a [NaN] or negative index passes
    the bounds check; a [Hole] is within the bounds) compares unequal to [0]
    and to [2], so it sounds as a normal beat. *)
Definition scheduleNote (r : Render) (t : num) (i : JsIndex) (rf : Refs) : Refs :=
  let rf := set_notesQueue (notesQueue rf ++ [{| time := t; beatIndex := i |}]) rf in
  if r_isMuted r then rf else
  match audioContextRef rf with
  | None => rf
  | Some ctx =>
      let pattern := beatPatternRef rf in
      if index_ge i (length pattern) then rf else
      let type := js_get pattern i in
      match type with
      | Some Mute => rf
      | _ =>
          let accent := match type with Some Accent => true | _ => false end in
          let baseGain := if accent then of_Z 1 else lit 6 10 in
          let osc := {| frequency := if accent then of_Z 1000 else of_Z 800;
                        gain := mul baseGain (volumeRef rf);
                        rampTarget := lit 1 1000;
                        rampEnd := add t (lit 5 100);
                        startAt := t;
                        stopAt := add t (lit 5 100) |} in
          set_audioContextRef (Some {| oscillators := oscillators ctx ++ [osc] |}) rf
      end
  end.

(** [const secondsPerBeat = 60.0 / bpm], [bpm] being the one the render
    captured.  A zero tempo gives [Infinity] in the browser and [0] in
    exact arithmetic; no theorem below is about a tempo that is not
    positive. *)
Definition secondsPerBeat (r : Render) : num := div (of_Z 60) (of_Z (r_bpm r)).

(** [(index + 1) % length]. *)
Definition advance (len : nat) (i : JsIndex) : JsIndex :=
  match i with
  | Int z => js_mod (z + 1) (Z.of_nat len)
  | NaN => NaN
  end.

(** [nextNote()] of render [r]. *)
Definition nextNote (r : Render) (rf : Refs) : Refs :=
  let rf := set_nextNoteTimeRef (add (nextNoteTimeRef rf) (secondsPerBeat r)) rf in
  set_currentBeatIndexRef
    (advance (length (beatPatternRef rf)) (currentBeatIndexRef rf)) rf.

(** One turn of the [while] loop of [scheduler]. *)
Definition beat (r : Render) (rf : Refs) : Refs :=
  nextNote r (scheduleNote r (nextNoteTimeRef rf) (currentBeatIndexRef rf) rf).

(** [n] turns of the loop, whatever the clock. *)
Fixpoint beats (r : Render) (n : nat) (rf : Refs) : Refs :=
  match n with
  | O => rf
  | S k => beat r (beats r k rf)
  end.

(** The note a turn of the loop queues: the cursor as it stands. *)
Definition note_of (rf : Refs) : ScheduledNote :=
  {| time := nextNoteTimeRef rf; beatIndex := currentBeatIndexRef rf |}.

(** The [while] loop of [scheduler] with the audio clock reading [now];
    [None] when the loop has not ended within [fuel] turns. *)
Fixpoint scheduler_loop (fuel : nat) (r : Render) (now : num) (rf : Refs) : option Refs :=
  match fuel with
  | O => None
  | S fuel' =>
      if ltb (nextNoteTimeRef rf) (add now scheduleAheadTime)
      then scheduler_loop fuel' r now (beat r rf)
      else Some rf
  end.

(** Turns granted to the loop: the distance to the horizon counted in beats,
    rounded up, and two more.  For a positive tempo this is never reached in
    exact arithmetic ([scheduler_loop_terminates]); a loop that needs more
    does not end (a tempo that is not positive moves the cursor backwards or
    not at all) and the model returns [None] for it. *)
Definition loop_fuel (r : Render) (now : num) (rf : Refs) : nat :=
  match exact (div (sub (add now scheduleAheadTime) (nextNoteTimeRef rf)) (secondsPerBeat r)) with
  | Some q => S (S (Z.to_nat (Qceiling q)))
  | None => 2%nat
  end.

(** [window.setTimeout(scheduler, lookahead)] with the id stored in
    [timerIDRef]; [window.clearTimeout(id)]. *)
Definition setTimeout (r : Render) (s : Metronome) : Metronome :=
  let id := nextTimerID (host s) in
  set_host {| pendingTimers := pendingTimers (host s) ++ [(id, r)]; nextTimerID := S id |}
    (with_refs (set_timerIDRef (Some id)) s).

Definition clearTimeout (id : nat) (s : Metronome) : Metronome :=
  set_host {| pendingTimers := filter (fun t => negb (Nat.eqb (fst t) id)) (pendingTimers (host s));
              nextTimerID := nextTimerID (host s) |} s.

(** [if (timerIDRef.current) window.clearTimeout(timerIDRef.current)]. *)
Definition clearPendingTimer (s : Metronome) : Metronome :=
  match timerIDRef (refs s) with
  | Some id => clearTimeout id s
  | None => s
  end.

(** [scheduler()] of render [r], the audio clock reading [now]. *)
Definition scheduler (r : Render) (now : num) (s : Metronome) : option Metronome :=
  match audioContextRef (refs s) with
  | None => Some s
  | Some _ =>
      match scheduler_loop (loop_fuel r now (refs s)) r now (refs s) with
      | Some rf => Some (setTimeout r (with_refs (fun _ => rf) s))
      | None => None
      end
  end.

(** The oldest pending timer fires: its [scheduler] closure runs. *)
Definition tick (now : num) (s : Metronome) : option Metronome :=
  match pendingTimers (host s) with
  | [] => Some s
  | (id, r) :: _ => scheduler r now (clearTimeout id s)
  end.

(** Successive timer callbacks, one per clock reading. *)
Fixpoint ticks (clock : list num) (s : Metronome) : option Metronome :=
  match clock with
  | [] => Some s
  | now :: clock' =>
      match tick now s with
      | Some s' => ticks clock' s'
      | None => None
      end
  end.

(** ** The visualiser loop *)

(** The [while] loop of [draw]: every queued note whose time is before
    [currentTime] becomes the active beat and leaves the queue. *)
Fixpoint draw_loop (currentTime : num) (queue : list ScheduledNote) (active : JsIndex)
  : list ScheduledNote * JsIndex :=
  match queue with
  | [] => ([], active)
  | playingNote :: rest =>
      if ltb (time playingNote) currentTime
      then draw_loop currentTime rest (beatIndex playingNote)
      else (queue, active)
  end.

(** One animation frame; the loop is requested only while the last commit
    saw [isPlaying]. *)
Definition draw (currentTime : num) (s : Metronome) : Metronome :=
  if m_isPlaying (memo s) then
    match audioContextRef (refs s) with
    | None => s
    | Some _ =>
        let (queue, active) :=
          draw_loop currentTime (notesQueue (refs s)) (activeBeatIndex (state s)) in
        with_state (setActiveBeatIndex active) (with_refs (set_notesQueue queue) s)
    end
  else s.

(** ** Render and effects *)

(** The render that follows a state update, with its effects, the audio
    clock reading [now].  In source order: the two effects that copy
    [beatPattern] and [volume] into their refs; the visualiser effect (deps
    [isPlaying]); the audio lifecycle effect (deps [isPlaying, scheduler]),
    which runs again whenever [isPlaying] changed or [useCallback] returned
    a new [scheduler], that is whenever [bpm] or [isMuted] changed.  Its
    cleanup clears the timer; its body, while playing, resets the cursor and
    calls [scheduler()]. *)
Definition current (s : Metronome) : Render :=
  {| r_bpm := bpm (state s); r_isMuted := isMuted (state s) |}.

(** The effects of lines 34-36 and 49-51: the refs follow the state. *)
Definition syncRefs (s : Metronome) : Metronome :=
  with_refs (set_volumeRef (volume (state s)))
    (with_refs (set_beatPatternRef (beatPattern (state s))) s).

(** The refs as the lifecycle effect leaves them before it calls
    [scheduler()]: the audio context created if there was none, the cursor
    at beat 0, 50 ms from [now]. *)
Definition arm (now : num) (rf : Refs) : Refs :=
  let rf := match audioContextRef rf with
            | None => set_audioContextRef (Some {| oscillators := [] |}) rf
            | Some _ => rf
            end in
  let rf := set_currentBeatIndexRef (Int 0) rf in
  set_nextNoteTimeRef (add now (lit 5 100)) rf.

Definition commit (now : num) (s : Metronome) : option Metronome :=
  let r := current s in
  let playing := isPlaying (state s) in
  let playingChanged := negb (Bool.eqb playing (m_isPlaying (memo s))) in
  let schedulerChanged := negb (Render_eqb r (m_scheduler (memo s))) in
  let s := syncRefs s in
  let s := if playingChanged && negb playing
           then with_state (setActiveBeatIndex (Int (-1))) s else s in
  if playingChanged || schedulerChanged then
    let s := clearPendingTimer s in
    let s := set_memo {| m_scheduler := r; m_isPlaying := playing |} s in
    if playing then scheduler r now (with_refs (arm now) s)
    else Some (clearPendingTimer s)
  else Some s.

(** ** Event handlers *)

(** The play button: [setIsPlaying(!isPlaying)]. *)
Definition onPlayClick (s : Metronome) : Metronome :=
  with_state (set_isPlaying (negb (isPlaying (state s)))) s.

(** The mute button: [setIsMuted(!isMuted)]. *)
Definition onMuteClick (s : Metronome) : Metronome :=
  with_state (setIsMuted (negb (isMuted (state s)))) s.

(** The tempo slider's [onChange]: [setBpm(Number(e.target.value))], the
    value taken as the widget delivers it. *)
Definition onBpmChange (value : Z) (s : Metronome) : Metronome :=
  with_state (setBpm value) s.

(** The volume slider's [onChange]. *)
Definition onVolumeChange (value : num) (s : Metronome) : Metronome :=
  with_state (setVolume value) s.

(** The cycle of [handleBeatClick]: [=== 1] gives 2, [=== 2] gives 0,
    anything else (0, or [undefined]) gives 1. *)
Definition cycle (b : BeatType) : BeatType :=
  match b with
  | Normal => Accent
  | Accent => Mute
  | Mute | Hole => Normal
  end.

(** [newPattern[index] = ...] on the copy of the pattern.  Within the
    pattern the slot is cycled.  At or past its end [newPattern[index]] is
    [undefined], so the [else] branch writes [1] there and the array grows
    to [index + 1] slots, the ones in between left as holes. *)
Fixpoint cycleAt (index : nat) (pattern : list BeatType) : list BeatType :=
  match pattern, index with
  | [], _ => repeat Hole index ++ [Normal]
  | b :: rest, O => cycle b :: rest
  | b :: rest, S index' => b :: cycleAt index' rest
  end.

(** [handleBeatClick(index)]. *)
Definition handleBeatClick (index : nat) (s : Metronome) : Metronome :=
  with_state (setBeatPattern (cycleAt index (beatPattern (state s)))) s.

(** [changeTimeSignature(delta)]. *)
Definition changeTimeSignature (delta : Z) (s : Metronome) : Metronome :=
  let pattern := beatPattern (state s) in
  let newPattern :=
    if (0 <? delta)%Z
    then (if (length pattern <? 12)%nat then pattern ++ [Normal] else pattern)
    else (if (1 <? length pattern)%nat then removelast pattern else pattern) in
  let s := with_state (setBeatPattern newPattern) s in
  if index_ge (currentBeatIndexRef (refs s)) (length newPattern)
  then with_refs (set_currentBeatIndexRef (Int 0)) s
  else s.

(** [reduce((a, b) => a + b)] on a non-empty array. *)
Definition sum (first : num) (rest : list num) : num := fold_left add rest first.

(** [tapTimes.slice(1).map((t, i) => t - tapTimes[i])]. *)
Definition intervals (taps : list num) : list num :=
  map (fun p => sub (fst p) (snd p)) (combine (tl taps) taps).

(** [Math.round(60000 / avg)] over the retained taps.  It is computed only
    when there are two taps or more, so [intervals] is not empty there; a
    zero average makes [60000 / avg] infinite in the browser and [0] in
    exact arithmetic, and neither passes the range check of [handleTap]. *)
Definition estimate (taps : list num) : option Z :=
  match intervals taps with
  | [] => None
  | first :: rest =>
      let avg := div (sum first rest) (of_Z (Z.of_nat (length (intervals taps)))) in
      Math_round (div (of_Z 60000) avg)
  end.

(** [tapTimesRef.current] after a tap at [now]. *)
Definition retain (now lastTap : num) (taps : list num) : list num :=
  if ltb (of_Z 2000) (sub now lastTap) then [now]
  else let pushed := taps ++ [now] in
       if (4 <? length pushed)%nat then tl pushed else pushed.

(** [handleTap()], [now] being [performance.now()]. *)
Definition handleTap (now : num) (s : Metronome) : Metronome :=
  let lastTap := lastTapRef (refs s) in
  let s := with_refs (set_tapTimesRef (retain now lastTap (tapTimesRef (refs s)))) s in
  let s := with_refs (set_lastTapRef now) s in
  if (1 <? length (tapTimesRef (refs s)))%nat then
    match estimate (tapTimesRef (refs s)) with
    | Some newBpm =>
        if (30 <=? newBpm)%Z && (newBpm <=? 300)%Z
        then with_state (setBpm newBpm) s else s
    | None => s
    end
  else s.

(** ** The mounted component *)

Definition initial : Metronome :=
  {| state := {| isPlaying := false; bpm := 120; isMuted := false;
                 beatPattern := [Accent; Normal; Normal; Normal];
                 activeBeatIndex := Int (-1); volume := lit 7 10 |};
     refs := {| beatPatternRef := [Accent; Normal; Normal; Normal];
                audioContextRef := None;
                nextNoteTimeRef := of_Z 0;
                currentBeatIndexRef := Int 0;
                timerIDRef := None;
                notesQueue := [];
                tapTimesRef := [];
                lastTapRef := of_Z 0;
                volumeRef := lit 7 10 |};
     memo := {| m_scheduler := {| r_bpm := 120; r_isMuted := false |};
                m_isPlaying := false |};
     host := {| pendingTimers := []; nextTimerID := 1 |} |}.

(** Pressing play at audio-clock time [now]: the click and the render that
    follows it. *)
Definition start (now : num) (s : Metronome) : option Metronome :=
  commit now (onPlayClick s).

(** The notes queued between two states when no frame was drawn in
    between. *)
Definition scheduled (before after : Refs) : list ScheduledNote :=
  skipn (length (notesQueue before)) (notesQueue after).

(** ** Runs *)

(** What can happen to the mounted component: a user gesture (which only
    updates state), the render that follows it, a timer callback, an
    animation frame. *)
Inductive Event : Type :=
| PlayClick
| MuteClick
| BpmChange (value : Z)
| VolumeChange (value : num)
| BeatClick (index : nat)
| TimeSignature (delta : Z)
| Tap (now : num)
| Commit (now : num)
| TimerFires (now : num)
| Frame (now : num).

Definition handle (e : Event) (s : Metronome) : option Metronome :=
  match e with
  | PlayClick => Some (onPlayClick s)
  | MuteClick => Some (onMuteClick s)
  | BpmChange v => Some (onBpmChange v s)
  | VolumeChange v => Some (onVolumeChange v s)
  | BeatClick i => Some (handleBeatClick i s)
  | TimeSignature d => Some (changeTimeSignature d s)
  | Tap now => Some (handleTap now s)
  | Commit now => commit now s
  | TimerFires now => tick now s
  | Frame now => Some (draw now s)
  end.

Fixpoint run (events : list Event) (s : Metronome) : option Metronome :=
  match events with
  | [] => Some s
  | e :: events' =>
      match handle e s with
      | Some s' => run events' s'
      | None => None
      end
  end.

(** Pressing play at clock reading [now], then one timer callback per
    reading of [clock]. *)
Definition play (now : num) (clock : list num) (s : Metronome) : option Metronome :=
  match start now s with
  | Some s' => ticks clock s'
  | None => None
  end.

(** The readings of a timer that fires every 25 ms, [n] times, after
    [now]: [now + k * 0.025] for [k = 1 .. n]. *)
Definition nominalClock (now : num) (n : nat) : list num :=
  map (fun k => add now (mul (of_Z (Z.of_nat k)) (lit 25 1000))) (seq 1 n).

(** Clock readings that never go back, from [prev] on. *)
Fixpoint ascendingb (prev : num) (clock : list num) : bool :=
  match clock with
  | [] => true
  | c :: clock' => negb (ltb c prev) && ascendingb c clock'
  end.

(** Taps in a row. *)
Definition taps (times : list num) (s : Metronome) : Metronome :=
  fold_left (fun s now => handleTap now s) times s.

(** *** States of the transport *)

(** A committed playing state: the last render saw [isPlaying], the
    memoised scheduler is the one of the current [bpm] and [isMuted], the
    audio context exists and the scheduler's timer is the one pending. *)
Definition running (r : Render) (s : Metronome) : Prop :=
  audioContextRef (refs s) <> None /\
  exists id, timerIDRef (refs s) = Some id /\ pendingTimers (host s) = [(id, r)].

Definition playing (s : Metronome) : Prop :=
  isPlaying (state s) = true /\ m_isPlaying (memo s) = true /\
  m_scheduler (memo s) = current s /\ running (current s) s.

(** A committed stopped state: the last render saw [isPlaying] false and
    its effect cleared the timer. *)
Definition stopped (s : Metronome) : Prop :=
  isPlaying (state s) = false /\ m_isPlaying (memo s) = false /\
  pendingTimers (host s) = [].

End Model.

Arguments ScheduledNote num : clear implicits.
Arguments Oscillator num : clear implicits.
Arguments AudioContext num : clear implicits.
Arguments State num : clear implicits.
Arguments Refs num : clear implicits.
Arguments Metronome num : clear implicits.

(** *** What the invariants below speak of *)

(** The oscillators handed to the audio context so far. *)
Definition sounding {num} (rf : Refs num) : list (Oscillator num) :=
  match audioContextRef rf with
  | Some ctx => oscillators ctx
  | None => []
  end.

(** An event as the widgets rendered from state [s] can produce it: the
    tempo slider is a range input with [min="30"] and [max="240"], and there
    is one slot button per index of [beatPattern.map], wired to
    [handleBeatClick(index)] with that index. *)
Definition offered {num} (s : Metronome num) (e : Event (num := num)) : Prop :=
  match e with
  | BpmChange value => (30 <= value <= 240)%Z
  | BeatClick index => (index < length (beatPattern (state s)))%nat
  | _ => True
  end.

(** A run in which every event comes from the widgets of the state it
    arrives in. *)
Fixpoint fromWidgets {num} `{JsNumber num} (events : list (Event (num := num)))
    (s : Metronome num) : Prop :=
  match events with
  | [] => True
  | e :: events' =>
      offered s e /\
      match handle e s with
      | Some s' => fromWidgets events' s'
      | None => True
      end
  end.

(** What every state reached through the widgets satisfies. *)
Definition wellFormed {num} (s : Metronome num) : Prop :=
  (30 <= bpm (state s) <= 300)%Z /\
  (1 <= length (beatPattern (state s)) <= 12)%nat /\
  (1 <= length (beatPatternRef (refs s)) <= 12)%nat /\
  ~ In Hole (beatPattern (state s)) /\
  ~ In Hole (beatPatternRef (refs s)) /\
  (length (tapTimesRef (refs s)) <= 4)%nat /\
  exists z, currentBeatIndexRef (refs s) = Int z /\ (0 <= z < 12)%Z.

(** ** The workspace around the metronome ([Workspace.tsx], [ControlPanel]) *)

(** An entry of the ["drum_history"] list. *)
Record HistoryItem : Type := { id : String.string; title : String.string; timestamp : Z }.

(** What [localStorage.getItem("drum_history")] holds: nothing (or the
    empty string), something [JSON.parse] or the array methods throw on, or
    a list of entries. *)
Inductive Stored : Type :=
| Missing
| Corrupt
| Saved (history : list HistoryItem).

(** The history part of [handleReady], [videoData] being the title of
    [event.target.getVideoData()] when there is video data with a title
    ([None] otherwise) and [now] being [Date.now()].  Everything runs inside
    a [try]: when parsing or filtering throws, nothing is written. *)
Definition saveHistory (videoId : String.string) (videoData : option String.string) (now : Z)
    (stored : Stored) : Stored :=
  match videoData with
  | None => stored
  | Some videoTitle =>
      if String.eqb videoTitle String.EmptyString then stored else
      let historyItem := {| id := videoId; title := videoTitle; timestamp := now |} in
      match stored with
      | Corrupt => Corrupt
      | Missing => Saved [historyItem]
      | Saved history =>
          let history := filter (fun h => negb (String.eqb (id h) videoId)) history in
          let history := historyItem :: history in
          Saved (if (20 <? length history)%nat then firstn 20 history else history)
      end
  end.

(** What [Landing] shows: the parsed list, or none when there is nothing
    stored or parsing throws. *)
Definition loadHistory (stored : Stored) : list HistoryItem :=
  match stored with
  | Saved history => history
  | Missing | Corrupt => []
  end.

(** [Math.max] and [Math.min] on numbers that are not [NaN]. *)
Definition Math_max {num} `{JsNumber num} (a b : num) : num := if ltb a b then b else a.
Definition Math_min {num} `{JsNumber num} (a b : num) : num := if ltb b a then b else a.

(** The loop region of the workspace. *)
Record LoopRegion {num : Type} : Type := { loopStart : num; loopEnd : num }.
Arguments LoopRegion num : clear implicits.

(** The time under the pointer in [handleMouseMove]: the pointer's offset
    clamped to the timeline, scaled to the duration. *)
Definition pointerTime {num} `{JsNumber num} (clientX left width duration : num) : num :=
  let offsetX := Math_max (of_Z 0) (Math_min (sub clientX left) width) in
  mul (div offsetX width) duration.

(** Dragging a handle of the loop region to [newTime]: [handleMouseMove] of
    the control panel followed by the workspace's [onLoopStartChange] or
    [onLoopEndChange].  The handler returns at once when the duration is
    not positive. *)
Definition dragStart {num} `{JsNumber num} (newTime duration : num) (loop : LoopRegion num)
  : LoopRegion num :=
  if ltb (of_Z 0) duration then
    let safeTime := Math_min newTime (sub (loopEnd loop) (lit 5 10)) in
    {| loopStart := Math_max (of_Z 0) (Math_max (of_Z 0) safeTime); loopEnd := loopEnd loop |}
  else loop.

Definition dragEnd {num} `{JsNumber num} (newTime duration : num) (loop : LoopRegion num)
  : LoopRegion num :=
  if ltb (of_Z 0) duration then
    let safeTime := Math_max newTime (add (loopStart loop) (lit 5 10)) in
    {| loopStart := loopStart loop; loopEnd := Math_min duration (Math_min duration safeTime) |}
  else loop.

(** A loop region the handles can have produced: it starts at or after 0,
    is at least half a second long and ends within the video. *)
Definition loopWithin (duration : Q) (loop : LoopRegion Q) : Prop :=
  0 <= loopStart loop /\ loopStart loop + (1 # 2) <= loopEnd loop /\ loopEnd loop <= duration.

(** ** Concrete runs in exact arithmetic *)

(** The cursor, the onset time in lowest terms. *)
Definition cursor (s : Metronome Q) : Q * JsIndex :=
  (Qred (nextNoteTimeRef (refs s)), currentBeatIndexRef (refs s)).

(** The queued notes, onset times in lowest terms. *)
Definition queued (s : Metronome Q) : list (Q * JsIndex) :=
  map (fun note => (Qred (time note), beatIndex note)) (notesQueue (refs s)).

Definition or_initial {num} `{JsNumber num} (o : option (Metronome num)) : Metronome num :=
  match o with
  | Some s => s
  | None => initial
  end.

(** Play pressed at clock 0 on the mounted component. *)
Definition started : Metronome Q := Eval vm_compute in or_initial (start 0 initial).

(** ... and 40 timer callbacks later, at clock 1. *)
Definition played_one_second : Metronome Q :=
  Eval vm_compute in or_initial (ticks (nominalClock 0 40) started).

(** ... and 80 timer callbacks later, at clock 2. *)
Definition played_two_seconds : Metronome Q :=
  Eval vm_compute in or_initial (ticks (nominalClock 0 80) started).

(** ... and 200 timer callbacks later, at clock 5. *)
Definition played_five_seconds : Metronome Q :=
  Eval vm_compute in or_initial (ticks (nominalClock 0 200) started).

(** The second slot clicked twice (Normal, Accent, Mute), then play. *)
Definition second_slot_muted : Metronome Q :=
  Eval vm_compute in
    or_initial (run [BeatClick 1; Commit 0; BeatClick 1; Commit 0; PlayClick; Commit 0] initial).

(** The pattern shortened to three beats while the cursor stood at the
    third, a timer callback having run between the click and the effect
    that copies the new pattern into its ref: the cursor is then at index 3
    of a pattern of length 3. *)
Definition shrunk_mid_flight : Metronome Q :=
  Eval vm_compute in
    or_initial
      (run ([PlayClick; Commit 0] ++ map TimerFires (nominalClock 0 38)
            ++ [TimeSignature (-1); TimerFires (975 # 1000); Commit (98 # 100)])
           initial).

(** The same run in double precision. *)
Definition played_two_seconds_double : option (Metronome float) :=
  play (of_Z 0) (nominalClock (of_Z 0) 80) initial.

(** A double within [10^-15] of a rational. *)
Definition close (f : float) (q : Q) : bool :=
  match float_exact f with
  | Some x => Qle_bool (Qabs (x - q)) (1 # 1000000000000000)
  | None => false
  end.

(** * The scheduler loop as a number of beats *)
Section Beats.
Context {num : Type} `{JsNumber num}.

Ltac cases_scheduleNote :=
  unfold scheduleNote; cbn;
  repeat match goal with
         | |- context [if ?b then _ else _] => destruct b
         | |- context [match ?x with _ => _ end] => destruct x
         end; cbn; try reflexivity.

Lemma scheduleNote_queue r t i rf :
  notesQueue (scheduleNote r t i rf) = notesQueue rf ++ [{| time := t; beatIndex := i |}].
Proof. cases_scheduleNote. Qed.

Lemma scheduleNote_frame r t i rf :
  beatPatternRef (scheduleNote r t i rf) = beatPatternRef rf /\
  nextNoteTimeRef (scheduleNote r t i rf) = nextNoteTimeRef rf /\
  currentBeatIndexRef (scheduleNote r t i rf) = currentBeatIndexRef rf /\
  timerIDRef (scheduleNote r t i rf) = timerIDRef rf.
Proof. cases_scheduleNote; auto. Qed.

Lemma scheduleNote_context r t i rf :
  audioContextRef rf <> None -> audioContextRef (scheduleNote r t i rf) <> None.
Proof. destruct rf; cases_scheduleNote; intros; solve [assumption | discriminate]. Qed.

Lemma beat_queue r rf : notesQueue (beat r rf) = notesQueue rf ++ [note_of rf].
Proof. unfold beat, nextNote. cbn. apply scheduleNote_queue. Qed.

Lemma beat_time r rf :
  nextNoteTimeRef (beat r rf) = add (nextNoteTimeRef rf) (secondsPerBeat r).
Proof.
  unfold beat, nextNote. cbn.
  destruct (scheduleNote_frame r (nextNoteTimeRef rf) (currentBeatIndexRef rf) rf) as (_ & -> & _).
  reflexivity.
Qed.

Lemma beat_index r rf :
  currentBeatIndexRef (beat r rf) = advance (length (beatPatternRef rf)) (currentBeatIndexRef rf).
Proof.
  unfold beat, nextNote. cbn.
  destruct (scheduleNote_frame r (nextNoteTimeRef rf) (currentBeatIndexRef rf) rf) as (-> & _ & -> & _).
  reflexivity.
Qed.

Lemma beat_pattern r rf : beatPatternRef (beat r rf) = beatPatternRef rf.
Proof. unfold beat, nextNote. cbn. apply scheduleNote_frame. Qed.

Lemma beat_context r rf : audioContextRef rf <> None -> audioContextRef (beat r rf) <> None.
Proof. unfold beat, nextNote. cbn. apply scheduleNote_context. Qed.

Lemma beat_timer r t rf : beat r (set_timerIDRef t rf) = set_timerIDRef t (beat r rf).
Proof.
  destruct rf as [pat ctx next idx tid q taps last vol].
  unfold beat, nextNote, scheduleNote; cbn.
  destruct (r_isMuted r); [reflexivity|].
  destruct ctx as [ctx|]; [|reflexivity].
  destruct (index_ge idx (length pat)); [reflexivity|].
  destruct (js_get pat idx) as [[]|]; reflexivity.
Qed.

Lemma beats_shift r n rf : beats r n (beat r rf) = beats r (S n) rf.
Proof. induction n; cbn [beats Nat.add]; [reflexivity | now rewrite IHn]. Qed.

Lemma beats_add r n m rf : beats r n (beats r m rf) = beats r (n + m) rf.
Proof. induction n; cbn [beats Nat.add]; [reflexivity | now rewrite IHn]. Qed.

Lemma beats_timer r t n rf : beats r n (set_timerIDRef t rf) = set_timerIDRef t (beats r n rf).
Proof. induction n; cbn [beats]; [reflexivity | now rewrite IHn, beat_timer]. Qed.

Lemma beats_pattern r n rf : beatPatternRef (beats r n rf) = beatPatternRef rf.
Proof. induction n; cbn [beats]; [reflexivity | now rewrite beat_pattern]. Qed.

Lemma beats_context r n rf : audioContextRef rf <> None -> audioContextRef (beats r n rf) <> None.
Proof. induction n; cbn [beats]; auto using beat_context. Qed.

Lemma beats_queue r n rf :
  notesQueue (beats r n rf) = notesQueue rf ++ map (fun k => note_of (beats r k rf)) (seq 0 n).
Proof.
  induction n.
  - cbn [beats seq map]. now rewrite app_nil_r.
  - cbn [beats]. rewrite beat_queue, IHn, seq_S, map_app, <- app_assoc. reflexivity.
Qed.

Lemma scheduler_loop_beats fuel r now rf rf' :
  scheduler_loop fuel r now rf = Some rf' ->
  exists n, rf' = beats r n rf /\
    ltb (nextNoteTimeRef rf') (add now scheduleAheadTime) = false /\
    forall k, (k < n)%nat ->
      ltb (nextNoteTimeRef (beats r k rf)) (add now scheduleAheadTime) = true.
Proof.
  revert rf. induction fuel as [|fuel IH]; intros rf; cbn [scheduler_loop]; [discriminate|].
  destruct (ltb (nextNoteTimeRef rf) (add now scheduleAheadTime)) eqn:Hlt.
  - intros Hloop. destruct (IH _ Hloop) as (n & -> & Hexit & Hin).
    exists (S n). rewrite beats_shift in *. repeat split; auto.
    intros [|k] Hk; [exact Hlt|]. rewrite <- beats_shift. apply Hin. lia.
  - intros [= <-]. exists 0%nat. repeat split; auto. intros k Hk; lia.
Qed.


Lemma set_timerIDRef_twice t t' (rf : Refs num) :
  set_timerIDRef t (set_timerIDRef t' rf) = set_timerIDRef t rf.
Proof. reflexivity. Qed.

Lemma set_timerIDRef_same (rf : Refs num) : set_timerIDRef (timerIDRef rf) rf = rf.
Proof. now destruct rf. Qed.

Lemma scheduler_beats r now s s' :
  audioContextRef (refs s) <> None ->
  scheduler r now s = Some s' ->
  exists n,
    refs s' = set_timerIDRef (Some (nextTimerID (host s))) (beats r n (refs s)) /\
    state s' = state s /\ memo s' = memo s /\
    pendingTimers (host s') = pendingTimers (host s) ++ [(nextTimerID (host s), r)] /\
    ltb (nextNoteTimeRef (refs s')) (add now scheduleAheadTime) = false /\
    forall k, (k < n)%nat ->
      ltb (nextNoteTimeRef (beats r k (refs s))) (add now scheduleAheadTime) = true.
Proof.
  unfold scheduler. intros Hctx.
  destruct (audioContextRef (refs s)); [|congruence].
  destruct (scheduler_loop _ r now (refs s)) as [rf|] eqn:Hloop; [|discriminate].
  intros [= <-]. destruct (scheduler_loop_beats _ _ _ _ _ Hloop) as (n & -> & Hexit & Hin).
  exists n. cbn. repeat split; auto.
Qed.

Lemma tick_beats r now s s' :
  running r s ->
  tick now s = Some s' ->
  exists n,
    refs s' = set_timerIDRef (Some (nextTimerID (host s))) (beats r n (refs s)) /\
    running r s' /\ state s' = state s /\ memo s' = memo s /\
    ltb (nextNoteTimeRef (refs s')) (add now scheduleAheadTime) = false /\
    forall k, (k < n)%nat ->
      ltb (nextNoteTimeRef (beats r k (refs s))) (add now scheduleAheadTime) = true.
Proof.
  intros [Hctx (id & Htimer & Hpending)]. unfold tick. rewrite Hpending.
  intros Hsched. apply scheduler_beats in Hsched; [|exact Hctx].
  destruct Hsched as (n & Hrefs & Hstate & Hmemo & Htimers & Hexit & Hin).
  exists n. cbn in *. rewrite Hpending in Htimers. cbn in Htimers.
  rewrite Nat.eqb_refl in Htimers. cbn in Htimers.
  repeat split; auto.
  - rewrite Hrefs. cbn. now apply beats_context.
  - exists (nextTimerID (host s)). rewrite Hrefs. split; [reflexivity | assumption].
Qed.

Lemma ticks_beats r clock : forall s s',
  running r s ->
  ticks clock s = Some s' ->
  exists n t,
    refs s' = set_timerIDRef t (beats r n (refs s)) /\
    running r s' /\ state s' = state s /\ memo s' = memo s.
Proof.
  induction clock as [|now clock IH]; intros s s' Hrun; cbn [ticks].
  - intros [= <-]. exists 0%nat, (timerIDRef (refs s)). cbn [beats].
    now rewrite set_timerIDRef_same.
  - destruct (tick now s) as [s1|] eqn:Htick; [|discriminate]. intros Hticks.
    destruct (tick_beats _ _ _ _ Hrun Htick) as (n1 & Hrefs1 & Hrun1 & Hstate1 & Hmemo1 & _).
    destruct (IH _ _ Hrun1 Hticks) as (n & t & Hrefs & Hrun' & Hstate & Hmemo).
    exists (n + n1)%nat, t. rewrite Hrefs, Hrefs1, beats_timer, set_timerIDRef_twice, beats_add.
    split; [reflexivity|]. split; [exact Hrun'|]. split; congruence.
Qed.

Lemma scheduled_beats r n t (rf : Refs num) :
  scheduled rf (set_timerIDRef t (beats r n rf)) =
  map (fun k => note_of (beats r k rf)) (seq 0 n).
Proof.
  unfold scheduled. cbn. rewrite beats_queue.
  rewrite skipn_app, skipn_all, Nat.sub_diag. reflexivity.
Qed.

End Beats.

(** * Queue, mute slots and indices *)
Section Generic.
Context {num : Type} `{JsNumber num}.

Lemma js_mod_in_bounds a len :
  (0 <= a)%Z -> (0 < len)%nat ->
  js_mod a (Z.of_nat len) = Int (a mod Z.of_nat len) /\
  (0 <= a mod Z.of_nat len < Z.of_nat len)%Z.
Proof.
  intros Ha Hlen. unfold js_mod.
  destruct (Z.of_nat len =? 0)%Z eqn:Hz; [lia|].
  rewrite Z.rem_mod_nonneg by lia. split; [reflexivity|].
  apply Z.mod_pos_bound. lia.
Qed.

Lemma js_get_in_bounds {A} (l : list A) z :
  (0 <= z < Z.of_nat (length l))%Z -> js_get l (Int z) <> None.
Proof.
  intros Hz. unfold js_get. destruct (z <? 0)%Z eqn:Hneg; [lia|].
  apply nth_error_Some. lia.
Qed.

Lemma beats_index r n (rf : Refs num) z :
  currentBeatIndexRef rf = Int z ->
  (0 <= z < Z.of_nat (length (beatPatternRef rf)))%Z ->
  currentBeatIndexRef (beats r n rf) =
  Int ((z + Z.of_nat n) mod Z.of_nat (length (beatPatternRef rf))).
Proof.
  intros Hidx Hz. induction n.
  - cbn [beats]. rewrite Hidx, Z.add_0_r, Z.mod_small by lia. reflexivity.
  - cbn [beats]. rewrite beat_index, beats_pattern, IHn. cbn [advance].
    destruct (js_mod_in_bounds ((z + Z.of_nat n) mod Z.of_nat (length (beatPatternRef rf)) + 1)
                (length (beatPatternRef rf))) as [-> _].
    + pose proof (Z.mod_pos_bound (z + Z.of_nat n) (Z.of_nat (length (beatPatternRef rf)))). lia.
    + lia.
    + f_equal. rewrite Zplus_mod_idemp_l. f_equal. lia.
Qed.

Lemma clearPendingTimer_frame (s : Metronome num) :
  refs (clearPendingTimer s) = refs s /\ state (clearPendingTimer s) = state s /\
  memo (clearPendingTimer s) = memo s /\
  nextTimerID (host (clearPendingTimer s)) = nextTimerID (host s).
Proof. unfold clearPendingTimer. destruct (timerIDRef (refs s)); cbn; auto. Qed.

Lemma clearPendingTimer_idle (s : Metronome num) :
  pendingTimers (host s) = [] -> pendingTimers (host (clearPendingTimer s)) = [].
Proof.
  intros Hp. unfold clearPendingTimer. destruct (timerIDRef (refs s)); cbn; now rewrite Hp.
Qed.

Lemma clearPendingTimer_running r (s : Metronome num) :
  running r s -> pendingTimers (host (clearPendingTimer s)) = [].
Proof.
  intros [_ (id & Htimer & Hp)]. unfold clearPendingTimer. rewrite Htimer. cbn.
  rewrite Hp. cbn. now rewrite Nat.eqb_refl.
Qed.

Lemma arm_context now (rf : Refs num) : audioContextRef (arm now rf) <> None.
Proof.
  unfold arm. destruct (audioContextRef rf) eqn:Hctx; cbn; [rewrite Hctx|]; discriminate.
Qed.

Lemma arm_cursor now (rf : Refs num) :
  nextNoteTimeRef (arm now rf) = add now (lit 5 100) /\
  currentBeatIndexRef (arm now rf) = Int 0 /\
  beatPatternRef (arm now rf) = beatPatternRef rf /\
  notesQueue (arm now rf) = notesQueue rf.
Proof. unfold arm. destruct (audioContextRef rf); cbn; auto. Qed.

Lemma last_cons {A} (a : A) l d : last (a :: l) d = last l a.
Proof.
  revert a d. induction l as [|b l IH]; intros a d; [reflexivity|].
  change (last (b :: l) d = last (b :: l) a). now rewrite !IH.
Qed.

Lemma draw_loop_all_due currentTime (queue : list (ScheduledNote num)) active :
  Forall (fun n => ltb (time n) currentTime = true) queue ->
  draw_loop currentTime queue active = ([], last (map beatIndex queue) active).
Proof.
  intros Hdue. revert active. induction Hdue as [|n queue Hn _ IH]; intros active.
  - reflexivity.
  - cbn [draw_loop map]. now rewrite Hn, IH, last_cons.
Qed.

(** C10.  Every call of [scheduleNote] appends exactly one note to the
    visual queue, before and whatever the mute flag, the audio context, the
    slot and the index are; a frame drawn once the notes are due makes the
    beat index of that note the active highlight. *)
Theorem scheduleNote_always_queues r t i (rf : Refs num) :
  notesQueue (scheduleNote r t i rf) = notesQueue rf ++ [{| time := t; beatIndex := i |}] /\
  forall (s : Metronome num) currentTime,
    refs s = rf ->
    m_isPlaying (memo s) = true ->
    audioContextRef rf <> None ->
    Forall (fun n => ltb (time n) currentTime = true) (notesQueue rf) ->
    ltb t currentTime = true ->
    activeBeatIndex (state (draw currentTime (with_refs (scheduleNote r t i) s))) = i.
Proof.
  split; [apply scheduleNote_queue|].
  intros s currentTime <- Hplaying Hctx Hdue Ht.
  unfold draw. cbn [memo with_refs refs]. rewrite Hplaying.
  pose proof (scheduleNote_context r t i (refs s) Hctx) as Hctx'.
  destruct (audioContextRef (scheduleNote r t i (refs s))); [|congruence].
  rewrite scheduleNote_queue, draw_loop_all_due.
  - cbn [state with_state setActiveBeatIndex activeBeatIndex].
    rewrite map_app. cbn [map]. now rewrite last_last.
  - apply Forall_app. split; [exact Hdue|]. constructor; [exact Ht | constructor].
Qed.

(** C8.  A note whose slot is [Mute] is still appended to the visual queue,
    and nothing is handed to the audio context for it. *)
Theorem mute_slot_queued_not_synthesised r t i (rf : Refs num) :
  js_get (beatPatternRef rf) i = Some Mute ->
  notesQueue (scheduleNote r t i rf) = notesQueue rf ++ [{| time := t; beatIndex := i |}] /\
  audioContextRef (scheduleNote r t i rf) = audioContextRef rf.
Proof.
  intros Hmute. split; [apply scheduleNote_queue|].
  destruct rf as [pat ctx next idx tid q tapsl last vol]. cbn in Hmute.
  unfold scheduleNote; cbn.
  destruct (r_isMuted r); [reflexivity|].
  destruct ctx as [ctx|]; [|reflexivity].
  destruct (index_ge i (length pat)); [reflexivity|].
  rewrite Hmute. reflexivity.
Qed.

(** C5.  When the cursor's index is at or past the length of a (non-empty)
    pattern, [scheduleNote] hands nothing to the audio context, and the
    advance that follows wraps the index modulo the length: the next index
    is within the pattern and the slot read for it exists. *)
Theorem index_past_pattern_skipped_then_wraps r (rf : Refs num) z :
  beatPatternRef rf <> [] ->
  currentBeatIndexRef rf = Int z ->
  (Z.of_nat (length (beatPatternRef rf)) <= z)%Z ->
  audioContextRef (scheduleNote r (nextNoteTimeRef rf) (Int z) rf) = audioContextRef rf /\
  currentBeatIndexRef (beat r rf) = Int ((z + 1) mod Z.of_nat (length (beatPatternRef rf))) /\
  (0 <= (z + 1) mod Z.of_nat (length (beatPatternRef rf))
     < Z.of_nat (length (beatPatternRef (beat r rf))))%Z /\
  js_get (beatPatternRef (beat r rf)) (currentBeatIndexRef (beat r rf)) <> None.
Proof.
  intros Hpat Hidx Hpast.
  assert (Hlen : (0 < length (beatPatternRef rf))%nat).
  { destruct (beatPatternRef rf); [congruence | cbn; lia]. }
  destruct (js_mod_in_bounds (z + 1) (length (beatPatternRef rf))) as [Hmod Hbound];
    [lia | exact Hlen |].
  assert (Hnext : currentBeatIndexRef (beat r rf)
                  = Int ((z + 1) mod Z.of_nat (length (beatPatternRef rf)))).
  { rewrite beat_index, Hidx. exact Hmod. }
  split; [|split; [exact Hnext | split]].
  - destruct rf as [pat ctx next idx tid q tapsl last vol]. cbn in *.
    unfold scheduleNote; cbn.
    destruct (r_isMuted r); [reflexivity|].
    destruct ctx as [ctx|]; [|reflexivity].
    destruct (Z.of_nat (length pat) <=? z)%Z eqn:Hge; [reflexivity | lia].
  - rewrite beat_pattern. exact Hbound.
  - rewrite Hnext. apply js_get_in_bounds. rewrite beat_pattern. exact Hbound.
Qed.

(** C9.  With the pattern unchanged over a run of timer callbacks and the
    cursor inside it, the beat indices of the notes the run queues repeat
    with period the pattern's length: [idx[i] = idx[i + L]]. *)
Theorem beat_indices_periodic r clock (s s' : Metronome num) z :
  running r s ->
  ticks clock s = Some s' ->
  currentBeatIndexRef (refs s) = Int z ->
  (0 <= z < Z.of_nat (length (beatPatternRef (refs s))))%Z ->
  beatPatternRef (refs s') = beatPatternRef (refs s) /\
  forall i,
    (i + length (beatPatternRef (refs s)) < length (scheduled (refs s) (refs s')))%nat ->
    nth_error (map beatIndex (scheduled (refs s) (refs s'))) i =
    nth_error (map beatIndex (scheduled (refs s) (refs s')))
              (i + length (beatPatternRef (refs s))).
Proof.
  intros Hrun Hticks Hidx Hz.
  destruct (ticks_beats r clock s s' Hrun Hticks) as (n & t & -> & _).
  split; [cbn; apply beats_pattern|].
  rewrite scheduled_beats, map_map, length_map, length_seq. intros i Hi.
  set (L := length (beatPatternRef (refs s))) in *.
  rewrite !nth_error_map, !nth_error_seq.
  replace (i <? n)%nat with true by (symmetry; apply Nat.ltb_lt; lia).
  replace (i + L <? n)%nat with true by (symmetry; apply Nat.ltb_lt; lia).
  cbn [option_map note_of beatIndex Nat.add].
  rewrite !(beats_index r _ (refs s) z Hidx Hz). f_equal. f_equal.
  fold L. rewrite Nat2Z.inj_add, Z.add_assoc.
  rewrite <- (Z.mul_1_l (Z.of_nat L)) at 2. rewrite Z.mod_add by lia. reflexivity.
Qed.

End Generic.

(** * Timing, in exact arithmetic *)
Ltac q_consts :=
  unfold scheduleAheadTime, secondsPerBeat, lit in *;
  cbn [of_Z add sub mul div QNumber] in *;
  repeat match goal with
         | |- context [inject_Z (Zpos ?p)] =>
             change (inject_Z (Zpos p)) with (Zpos p # 1)
         | H : context [inject_Z (Zpos ?p)] |- _ =>
             change (inject_Z (Zpos p)) with (Zpos p # 1) in H
         | |- context [inject_Z Z0] => change (inject_Z Z0) with 0
         | H : context [inject_Z Z0] |- _ => change (inject_Z Z0) with 0 in H
         end;
  repeat match goal with
         | |- context [Qdiv (Qmake (Zpos ?a) ?b) (Qmake (Zpos ?c) ?d)] =>
             let v := eval vm_compute in (Qdiv (Qmake (Zpos a) b) (Qmake (Zpos c) d)) in
             change (Qdiv (Qmake (Zpos a) b) (Qmake (Zpos c) d)) with v
         | H : context [Qdiv (Qmake (Zpos ?a) ?b) (Qmake (Zpos ?c) ?d)] |- _ =>
             let v := eval vm_compute in (Qdiv (Qmake (Zpos a) b) (Qmake (Zpos c) d)) in
             change (Qdiv (Qmake (Zpos a) b) (Qmake (Zpos c) d)) with v in H
         end.

Section Exact.

Implicit Types (s : Metronome Q) (rf : Refs Q) (now : Q).

Lemma Qltb_true (a b : Q) : ltb a b = true <-> a < b.
Proof.
  cbn. rewrite negb_true_iff. split.
  - intros Hb. apply Qnot_le_lt. rewrite <- Qle_bool_iff. congruence.
  - intros Hlt. destruct (Qle_bool b a) eqn:Hb; [|reflexivity].
    apply Qle_bool_iff in Hb. lra.
Qed.

Lemma Qltb_false (a b : Q) : ltb a b = false <-> b <= a.
Proof. cbn. rewrite negb_false_iff. apply Qle_bool_iff. Qed.

Lemma scheduleAheadTime_exact : (scheduleAheadTime : Q) == 1 # 10.
Proof. reflexivity. Qed.

Lemma secondsPerBeat_pos r : (0 < r_bpm r)%Z -> 0 < (secondsPerBeat r : Q).
Proof.
  intros Hpos. unfold secondsPerBeat. cbn [of_Z div QNumber].
  assert (0 < inject_Z (r_bpm r)) by (change 0 with (inject_Z 0); now rewrite <- Zlt_Qlt).
  apply Qlt_shift_div_l; [assumption|]. q_consts. lra.
Qed.

Lemma beats_time r n (rf : Refs Q) :
  nextNoteTimeRef (beats r n rf) ==
  nextNoteTimeRef rf + inject_Z (Z.of_nat n) * secondsPerBeat r.
Proof.
  induction n.
  - cbn [beats]. change (inject_Z (Z.of_nat 0)) with 0. lra.
  - cbn [beats]. rewrite beat_time. cbn [add QNumber]. rewrite IHn.
    rewrite Nat2Z.inj_succ, <- Z.add_1_r, inject_Z_plus.
    change (inject_Z 1) with 1. lra.
Qed.

Lemma scheduler_loop_enough r now : forall fuel (rf : Refs Q),
  (0 < r_bpm r)%Z ->
  now + scheduleAheadTime - nextNoteTimeRef rf <= inject_Z (Z.of_nat fuel) * secondsPerBeat r ->
  exists rf', scheduler_loop (S fuel) r now rf = Some rf'.
Proof.
  intros fuel rf Hpos. apply secondsPerBeat_pos in Hpos. revert rf.
  induction fuel as [|fuel IH]; intros rf Hfuel; cbn [scheduler_loop];
    destruct (ltb (nextNoteTimeRef rf) (add now scheduleAheadTime)) eqn:Hlt; eauto.
  - apply Qltb_true in Hlt. cbn [add QNumber] in Hlt.
    change (inject_Z (Z.of_nat 0)) with 0 in Hfuel. lra.
  - apply IH. rewrite beat_time. cbn [add QNumber].
    rewrite Nat2Z.inj_succ, <- Z.add_1_r, inject_Z_plus in Hfuel.
    change (inject_Z 1) with 1 in Hfuel. lra.
Qed.

Lemma scheduler_loop_terminates r now (rf : Refs Q) :
  (0 < r_bpm r)%Z ->
  exists rf', scheduler_loop (loop_fuel r now rf) r now rf = Some rf'.
Proof.
  intros Hpos. unfold loop_fuel. cbn [exact QNumber].
  apply scheduler_loop_enough; [exact Hpos|].
  pose proof (secondsPerBeat_pos r Hpos) as Hspb.
  fold (secondsPerBeat r : Q). cbn [add sub div QNumber].
  set (d := now + scheduleAheadTime - nextNoteTimeRef rf).
  set (spb := secondsPerBeat r) in *.
  assert (Hq : d == d / spb * spb) by (field; lra).
  assert (Hceil : d / spb <= inject_Z (Z.of_nat (S (Z.to_nat (Qceiling (d / spb)))))).
  { eapply Qle_trans; [apply Qle_ceiling|]. rewrite <- Zle_Qle. lia. }
  rewrite Hq at 1. apply Qmult_le_compat_r; [exact Hceil | lra].
Qed.


Lemma scheduler_window r now s :
  audioContextRef (refs s) <> None ->
  (0 < r_bpm r)%Z ->
  exists s' n,
    scheduler r now s = Some s' /\
    refs s' = set_timerIDRef (Some (nextTimerID (host s))) (beats r n (refs s)) /\
    state s' = state s /\ memo s' = memo s /\
    pendingTimers (host s') = pendingTimers (host s) ++ [(nextTimerID (host s), r)] /\
    now + scheduleAheadTime <= nextNoteTimeRef (refs s') /\
    (forall k, (k < n)%nat -> nextNoteTimeRef (beats r k (refs s)) < now + scheduleAheadTime) /\
    (nextNoteTimeRef (refs s) < now + scheduleAheadTime + secondsPerBeat r ->
     nextNoteTimeRef (refs s') < now + scheduleAheadTime + secondsPerBeat r).
Proof.
  intros Hctx Hpos.
  destruct (scheduler_loop_terminates r now (refs s) Hpos) as [rf Hloop].
  assert (Hsched : scheduler r now s =
                   Some (setTimeout r (with_refs (fun _ => rf) s))).
  { unfold scheduler. destruct (audioContextRef (refs s)); [|congruence]. now rewrite Hloop. }
  destruct (scheduler_beats r now s _ Hctx Hsched)
    as (n & Hrefs & Hstate & Hmemo & Htimers & Hexit & Hin).
  exists (setTimeout r (with_refs (fun _ => rf) s)), n.
  apply Qltb_false in Hexit.
  assert (Hin' : forall k, (k < n)%nat ->
                   nextNoteTimeRef (beats r k (refs s)) < now + scheduleAheadTime).
  { intros k Hk. apply Qltb_true. now apply Hin. }
  repeat (split; [assumption|]).
  rewrite Hrefs. cbn [nextNoteTimeRef set_timerIDRef]. intros Hpre.
  destruct n as [|m]; [exact Hpre|].
  cbn [beats]. rewrite beat_time. specialize (Hin' m (Nat.lt_succ_diag_r m)).
  cbn [add QNumber]. lra.
Qed.


Lemma tick_window r now s :
  running r s ->
  (0 < r_bpm r)%Z ->
  exists s' n,
    tick now s = Some s' /\
    refs s' = set_timerIDRef (Some (nextTimerID (host s))) (beats r n (refs s)) /\
    running r s' /\ state s' = state s /\ memo s' = memo s /\
    now + scheduleAheadTime <= nextNoteTimeRef (refs s') /\
    (forall k, (k < n)%nat -> nextNoteTimeRef (beats r k (refs s)) < now + scheduleAheadTime) /\
    (nextNoteTimeRef (refs s) < now + scheduleAheadTime + secondsPerBeat r ->
     nextNoteTimeRef (refs s') < now + scheduleAheadTime + secondsPerBeat r).
Proof.
  intros [Hctx (id & Htimer & Hpending)] Hpos. unfold tick. rewrite Hpending.
  destruct (scheduler_window r now (clearTimeout id s) Hctx Hpos)
    as (s' & n & Hsched & Hrefs & Hstate & Hmemo & Htimers & Hwin).
  exists s', n. cbn [clearTimeout set_host host refs state memo nextTimerID pendingTimers] in *.
  rewrite Hpending in Htimers. cbn in Htimers. rewrite Nat.eqb_refl in Htimers. cbn in Htimers.
  repeat (split; [assumption|]).
  split; [|split; [assumption | split; assumption]].
  split.
  - rewrite Hrefs. cbn. now apply beats_context.
  - exists (nextTimerID (host s)). rewrite Hrefs. split; [reflexivity | assumption].
Qed.

Lemma ascendingb_cons prev c clock :
  ascendingb prev (c :: clock) = true <-> prev <= c /\ ascendingb c clock = true.
Proof.
  cbn [ascendingb]. rewrite andb_true_iff, negb_true_iff, Qltb_false. reflexivity.
Qed.

Lemma ascendingb_last prev clock :
  ascendingb prev clock = true -> prev <= last clock prev.
Proof.
  revert prev. induction clock as [|c clock IH]; intros prev Hasc.
  - cbn. lra.
  - apply ascendingb_cons in Hasc. destruct Hasc as [Hle Hasc].
    rewrite last_cons. specialize (IH c Hasc). lra.
Qed.

Lemma ticks_window r clock : forall s prev,
  running r s ->
  (0 < r_bpm r)%Z ->
  ascendingb prev clock = true ->
  prev + scheduleAheadTime <= nextNoteTimeRef (refs s) ->
  nextNoteTimeRef (refs s) < prev + scheduleAheadTime + secondsPerBeat r ->
  exists s' n t,
    ticks clock s = Some s' /\
    refs s' = set_timerIDRef t (beats r n (refs s)) /\
    running r s' /\ state s' = state s /\ memo s' = memo s /\
    last clock prev + scheduleAheadTime <= nextNoteTimeRef (refs s') /\
    nextNoteTimeRef (refs s') < last clock prev + scheduleAheadTime + secondsPerBeat r /\
    (forall k, (k < n)%nat ->
       nextNoteTimeRef (beats r k (refs s)) < last clock prev + scheduleAheadTime).
Proof.
  induction clock as [|now clock IH]; intros s prev Hrun Hpos Hasc Hlow Hup.
  - exists s, 0%nat, (timerIDRef (refs s)). cbn [ticks beats last].
    rewrite set_timerIDRef_same. repeat (split; [auto; fail|]). intros k Hk; lia.
  - apply ascendingb_cons in Hasc. destruct Hasc as [Hle Hasc].
    destruct (tick_window r now s Hrun Hpos)
      as (s1 & n1 & Htick & Hrefs1 & Hrun1 & Hstate1 & Hmemo1 & Hlow1 & Hin1 & Hup1).
    assert (Hup1' : nextNoteTimeRef (refs s1) < now + scheduleAheadTime + secondsPerBeat r)
      by (apply Hup1; lra).
    destruct (IH s1 now Hrun1 Hpos Hasc Hlow1 Hup1')
      as (s' & n & t & Hticks & Hrefs & Hrun' & Hstate & Hmemo & Hlow' & Hup' & Hin).
    exists s', (n + n1)%nat, t. cbn [ticks]. rewrite Htick, last_cons.
    split; [exact Hticks|].
    split; [now rewrite Hrefs, Hrefs1, beats_timer, set_timerIDRef_twice, beats_add|].
    split; [exact Hrun'|]. split; [congruence|]. split; [congruence|].
    split; [exact Hlow'|]. split; [exact Hup'|].
    intros k Hk. pose proof (ascendingb_last now clock Hasc) as Hlast.
    destruct (Nat.lt_ge_cases k n1) as [Hk1|Hk1].
    + specialize (Hin1 k Hk1). lra.
    + specialize (Hin (k - n1)%nat ltac:(lia)).
      rewrite Hrefs1, beats_timer in Hin. cbn [nextNoteTimeRef set_timerIDRef] in Hin.
      rewrite beats_add in Hin. now replace (k - n1 + n1)%nat with k in Hin by lia.
Qed.


Lemma start_eq now s :
  stopped s ->
  start now s =
  scheduler (current s) now
    (with_refs (arm now)
       (set_memo {| m_scheduler := current s; m_isPlaying := true |}
          (clearPendingTimer (syncRefs (onPlayClick s))))).
Proof.
  intros (Hstate & Hmemo & _). unfold start, commit.
  cbn [onPlayClick with_state state memo set_isPlaying isPlaying].
  rewrite Hstate, Hmemo. reflexivity.
Qed.

Lemma start_window now s :
  stopped s ->
  (0 < bpm (state s))%Z ->
  exists s' n,
    start now s = Some s' /\
    refs s' = set_timerIDRef (Some (nextTimerID (host s)))
                (beats (current s) n (arm now (refs (syncRefs s)))) /\
    playing s' /\ current s' = current s /\
    (1 <= n)%nat /\
    now + scheduleAheadTime <= nextNoteTimeRef (refs s') /\
    nextNoteTimeRef (refs s') < now + scheduleAheadTime + secondsPerBeat (current s) /\
    (forall k, (k < n)%nat ->
       nextNoteTimeRef (beats (current s) k (arm now (refs (syncRefs s))))
       < now + scheduleAheadTime).
Proof.
  intros Hstopped Hpos. rewrite (start_eq now s Hstopped).
  destruct Hstopped as (Hstate & Hmemo & Hpending).
  set (s0 := with_refs (arm now) _).
  destruct (clearPendingTimer_frame (syncRefs (onPlayClick s))) as (Hr & Hs & _ & Hid).
  assert (Hrefs0 : refs s0 = arm now (refs (syncRefs s))).
  { subst s0. cbn [refs with_refs set_memo]. now rewrite Hr. }
  assert (Hctx : audioContextRef (refs s0) <> None).
  { rewrite Hrefs0. apply arm_context. }
  assert (Hid0 : nextTimerID (host s0) = nextTimerID (host s)).
  { subst s0. cbn [host with_refs set_memo]. now rewrite Hid. }
  assert (Hpending0 : pendingTimers (host s0) = []).
  { subst s0. cbn [host with_refs set_memo]. now apply clearPendingTimer_idle. }
  assert (Hstate0 : state s0 = set_isPlaying true (state s)).
  { subst s0. cbn [state with_refs set_memo]. rewrite Hs. cbn. now rewrite Hstate. }
  assert (Hmemo0 : memo s0 = {| m_scheduler := current s; m_isPlaying := true |}).
  { subst s0. reflexivity. }
  destruct (scheduler_window (current s) now s0 Hctx Hpos)
    as (s' & n & Hsched & Hrefs & Hstate' & Hmemo' & Htimers & Hlow & Hin & Hup).
  rewrite Hrefs0, Hid0 in *. rewrite Hpending0 in Htimers. cbn [app] in Htimers.
  assert (Hnext0 : nextNoteTimeRef (arm now (refs (syncRefs s))) == now + (5 # 100)).
  { unfold arm. cbn [nextNoteTimeRef set_nextNoteTimeRef]. q_consts. reflexivity. }
  pose proof (secondsPerBeat_pos (current s) Hpos) as Hspb.
  exists s', n. split; [exact Hsched|]. split; [exact Hrefs|].
  assert (Hcur : current s' = current s).
  { unfold current. rewrite Hstate', Hstate0. reflexivity. }
  split; [|split; [exact Hcur|]].
  - unfold playing. rewrite Hstate', Hstate0, Hmemo', Hmemo0, Hcur. cbn.
    repeat split; auto.
    + rewrite Hrefs. cbn. apply beats_context. exact Hctx.
    + exists (nextTimerID (host s)). rewrite Hrefs. split; [reflexivity | exact Htimers].
  - split; [|split; [exact Hlow | split; [|exact Hin]]].
    + destruct n; [|lia]. rewrite Hrefs in Hlow. cbn in Hlow. rewrite Hnext0 in Hlow.
      q_consts. exfalso. lra.
    + apply Hup. rewrite Hnext0. q_consts. lra.
Qed.


Lemma ticks_total r clock : forall s,
  running r s -> (0 < r_bpm r)%Z -> exists s', ticks clock s = Some s'.
Proof.
  induction clock as [|now clock IH]; intros s Hrun Hpos; cbn [ticks]; [eauto|].
  destruct (tick_window r now s Hrun Hpos) as (s1 & n & -> & _ & Hrun1 & _).
  now apply IH.
Qed.

Lemma beats_time_le r n (rf : Refs Q) :
  (0 < r_bpm r)%Z -> nextNoteTimeRef rf <= nextNoteTimeRef (beats r n rf).
Proof.
  intros Hpos. rewrite beats_time. pose proof (secondsPerBeat_pos r Hpos) as Hspb.
  assert (Hn : 0 <= inject_Z (Z.of_nat n))
    by (change 0 with (inject_Z 0); rewrite <- Zle_Qle; lia).
  pose proof (Qmult_le_0_compat _ _ Hn (Qlt_le_weak _ _ Hspb)). lra.
Qed.

(** A run of timer callbacks, whatever the clock readings: the cursor ends
    at or past the horizon of every callback, and each beat taken was before
    the horizon of the callback that took it. *)
Lemma ticks_reach r clock : forall s,
  running r s ->
  (0 < r_bpm r)%Z ->
  exists s' n t,
    ticks clock s = Some s' /\
    refs s' = set_timerIDRef t (beats r n (refs s)) /\
    (forall c, In c clock -> c + scheduleAheadTime <= nextNoteTimeRef (refs s')) /\
    (forall k, (k < n)%nat ->
       exists c, In c clock /\ nextNoteTimeRef (beats r k (refs s)) < c + scheduleAheadTime).
Proof.
  induction clock as [|now clock IH]; intros s Hrun Hpos.
  - exists s, 0%nat, (timerIDRef (refs s)). cbn [ticks beats].
    rewrite set_timerIDRef_same. split; [reflexivity|]. split; [reflexivity|].
    split; [intros c []|]. intros k Hk; lia.
  - destruct (tick_window r now s Hrun Hpos)
      as (s1 & n1 & Htick & Hrefs1 & Hrun1 & _ & _ & Hlow1 & Hin1 & _).
    destruct (IH s1 Hrun1 Hpos) as (s' & n & t & Hticks & Hrefs & Hlow & Hin).
    exists s', (n + n1)%nat, t. cbn [ticks]. rewrite Htick.
    split; [exact Hticks|].
    split; [now rewrite Hrefs, Hrefs1, beats_timer, set_timerIDRef_twice, beats_add|].
    split.
    + intros c [<- | Hc]; [|now apply Hlow].
      rewrite Hrefs. cbn [nextNoteTimeRef set_timerIDRef].
      pose proof (beats_time_le r n (refs s1) Hpos). lra.
    + intros k Hk. destruct (Nat.lt_ge_cases k n1) as [Hk1|Hk1].
      * exists now. split; [now left | now apply Hin1].
      * destruct (Hin (k - n1)%nat ltac:(lia)) as (c & Hc & Hbefore).
        exists c. split; [now right|].
        rewrite Hrefs1, beats_timer in Hbefore.
        cbn [nextNoteTimeRef set_timerIDRef] in Hbefore.
        rewrite beats_add in Hbefore. now replace (k - n1 + n1)%nat with k in Hbefore by lia.
Qed.

(** C2.  At a tempo [T] in [30, 300] held over a run of timer callbacks, the
    notes the run queues are an arithmetic sequence: the [k]-th has onset
    [t + k * (60 / T)], [t] being the cursor's onset when the run began, and
    the cursor is left at the term after the last one queued.  The run
    queues as many terms as the callbacks call for: the cursor ends at or
    past the horizon (clock plus 100 ms) of every callback, so no term
    before a horizon is left out, and every note queued was before the
    horizon of some callback.  (Exact arithmetic; the doubles of the browser
    differ from the terms by rounding.) *)
Theorem onsets_arithmetic clock s :
  playing s ->
  (30 <= bpm (state s) <= 300)%Z ->
  exists s',
    ticks clock s = Some s' /\
    let t := nextNoteTimeRef (refs s) in
    let step := 60 / inject_Z (bpm (state s)) in
    let notes := scheduled (refs s) (refs s') in
    (forall k note, nth_error notes k = Some note ->
       time note == t + inject_Z (Z.of_nat k) * step) /\
    nextNoteTimeRef (refs s') == t + inject_Z (Z.of_nat (length notes)) * step /\
    (forall c, In c clock -> c + (1 # 10) <= nextNoteTimeRef (refs s')) /\
    (forall note, In note notes -> exists c, In c clock /\ time note < c + (1 # 10)).
Proof.
  intros (_ & _ & _ & Hrun) Hbpm.
  destruct (ticks_reach (current s) clock s Hrun) as (s' & n & tid & Hticks & Hrefs & Hlow & Hin);
    [cbn; lia|].
  exists s'. split; [exact Hticks|]. cbv zeta.
  rewrite Hrefs, scheduled_beats, length_map, length_seq.
  cbn [nextNoteTimeRef set_timerIDRef].
  split; [|split; [|split]].
  - intros k note. rewrite nth_error_map, nth_error_seq.
    destruct (k <? n)%nat; [|discriminate]. cbn [option_map Nat.add].
    intros [= <-]. cbn [time note_of]. rewrite beats_time. q_consts. reflexivity.
  - rewrite beats_time. q_consts. reflexivity.
  - intros c Hc. specialize (Hlow c Hc). rewrite Hrefs in Hlow.
    cbn [nextNoteTimeRef set_timerIDRef] in Hlow. q_consts. exact Hlow.
  - intros note Hnote. apply in_map_iff in Hnote. destruct Hnote as (k & <- & Hk).
    apply in_seq in Hk. destruct (Hin k ltac:(lia)) as (c & Hc & Hbefore).
    exists c. split; [exact Hc|]. cbn [time note_of]. q_consts. exact Hbefore.
Qed.

Lemma syncRefs_frame s :
  notesQueue (refs (syncRefs s)) = notesQueue (refs s) /\
  beatPatternRef (refs (syncRefs s)) = beatPattern (state s) /\
  nextNoteTimeRef (refs (syncRefs s)) = nextNoteTimeRef (refs s) /\
  currentBeatIndexRef (refs (syncRefs s)) = currentBeatIndexRef (refs s) /\
  timerIDRef (refs (syncRefs s)) = timerIDRef (refs s).
Proof. cbn. auto. Qed.

Lemma play_window now clock s :
  stopped s ->
  (0 < bpm (state s))%Z ->
  ascendingb now clock = true ->
  exists s' n t,
    play now clock s = Some s' /\
    refs s' = set_timerIDRef t (beats (current s) n (arm now (refs (syncRefs s)))) /\
    playing s' /\ current s' = current s /\
    (1 <= n)%nat /\
    last clock now + scheduleAheadTime <= nextNoteTimeRef (refs s') /\
    nextNoteTimeRef (refs s') < last clock now + scheduleAheadTime + secondsPerBeat (current s) /\
    (forall k, (k < n)%nat ->
       nextNoteTimeRef (beats (current s) k (arm now (refs (syncRefs s))))
       < last clock now + scheduleAheadTime).
Proof.
  intros Hstopped Hpos Hasc.
  destruct (start_window now s Hstopped Hpos)
    as (s0 & n0 & Hstart & Hrefs0 & Hplay0 & Hcur0 & Hn0 & Hlow0 & Hup0 & Hin0).
  pose proof Hplay0 as (Hp1 & Hp2 & Hp3 & Hrun0). rewrite Hcur0 in Hrun0.
  destruct (ticks_window (current s) clock s0 now Hrun0 Hpos Hasc Hlow0 Hup0)
    as (s' & n & t & Hticks & Hrefs & Hrun & Hstate & Hmemo & Hlow & Hup & Hin).
  assert (Hcur : current s' = current s) by (unfold current in *; now rewrite Hstate).
  exists s', (n + n0)%nat, t. unfold play. rewrite Hstart.
  split; [exact Hticks|].
  split; [now rewrite Hrefs, Hrefs0, beats_timer, set_timerIDRef_twice, beats_add|].
  split; [|split; [exact Hcur | split; [lia | split; [exact Hlow | split; [exact Hup|]]]]].
  - unfold playing. rewrite Hcur, Hstate, Hmemo. repeat split; try assumption.
    + now rewrite Hp3.
    + apply Hrun.
    + apply Hrun.
  - intros k Hk. pose proof (ascendingb_last now clock Hasc) as Hlast.
    destruct (Nat.lt_ge_cases k n0) as [Hk0|Hk0].
    + specialize (Hin0 k Hk0). lra.
    + specialize (Hin (k - n0)%nat ltac:(lia)).
      rewrite Hrefs0, beats_timer in Hin. cbn [nextNoteTimeRef set_timerIDRef] in Hin.
      rewrite beats_add in Hin. now replace (k - n0 + n0)%nat with k in Hin by lia.
Qed.

(** C4, as amended.  From the moment play is pressed and after every timer
    callback, the clock never going back, the cursor's onset is at least the
    schedule-ahead window (100 ms) past the clock reading of that callback
    and less than the window plus one beat (60 / tempo) past it; each note
    queued has its onset inside the window of the latest callback. *)
Theorem cursor_within_window_plus_one_beat now clock s :
  stopped s ->
  (30 <= bpm (state s) <= 300)%Z ->
  ascendingb now clock = true ->
  exists s',
    play now clock s = Some s' /\
    last clock now + (1 # 10) <= nextNoteTimeRef (refs s') /\
    nextNoteTimeRef (refs s') - last clock now < (1 # 10) + 60 / inject_Z (bpm (state s)) /\
    Forall (fun note => time note < last clock now + (1 # 10))
           (scheduled (refs s) (refs s')).
Proof.
  intros Hstopped Hbpm Hasc.
  destruct (play_window now clock s Hstopped ltac:(lia) Hasc)
    as (s' & n & t & Hplay & Hrefs & _ & _ & _ & Hlow & Hup & Hin).
  exists s'. split; [exact Hplay|]. q_consts. cbn [r_bpm current] in *.
  split; [exact Hlow | split; [lra|]].
  unfold scheduled. rewrite Hrefs. cbn [notesQueue set_timerIDRef].
  rewrite beats_queue.
  destruct (arm_cursor now (refs (syncRefs s))) as (_ & _ & _ & ->).
  destruct (syncRefs_frame s) as (-> & _).
  rewrite skipn_app, skipn_all, Nat.sub_diag. cbn [skipn app].
  apply Forall_forall. intros note Hnote. apply in_map_iff in Hnote.
  destruct Hnote as (k & <- & Hk). apply in_seq in Hk. cbn [time note_of].
  apply Hin. lia.
Qed.


Lemma stopped_initial : stopped (initial : Metronome Q).
Proof. repeat split. Qed.

(** C3, as amended.  Started at 120 BPM with [Accent, Normal, Normal,
    Normal] and run for two seconds of audio clock, the last timer callback
    falling in the final 25 ms (one period of the timer), the scheduler has
    queued exactly five notes: indices 0, 1, 2, 3, 0 at [t0], [t0 + 0.5],
    [t0 + 1], [t0 + 1.5] and [t0 + 2], [t0] being the start plus 50 ms, and
    the cursor stands at [t0 + 2.5].  The fifth onset is then at least 25 ms
    before the horizon (clock plus 100 ms) of the last callback and the
    sixth at least 450 ms past it.  The clock is taken between 0 and [10^6]
    seconds: exact arithmetic does not need that, it is where doubles
    resolve the clock far more finely than those margins. *)
Theorem two_seconds_at_120 now clock :
  0 <= now <= 1000000 ->
  ascendingb now clock = true ->
  now + (1975 # 1000) <= last clock now ->
  last clock now <= now + 2 ->
  exists s',
    play now clock initial = Some s' /\
    map beatIndex (notesQueue (refs s')) = [Int 0; Int 1; Int 2; Int 3; Int 0] /\
    Forall2 Qeq (map time (notesQueue (refs s')))
      (let t0 := now + (5 # 100) in
       [t0; t0 + (1 # 2); t0 + 1; t0 + (3 # 2); t0 + 2]) /\
    nextNoteTimeRef (refs s') == now + (5 # 100) + (5 # 2).
Proof.
  intros _ Hasc Hlate Hend.
  destruct (play_window now clock initial stopped_initial ltac:(cbn [bpm state initial]; lia) Hasc)
    as (s' & n & t & Hplay & Hrefs & _ & _ & _ & Hlow & Hup & _).
  exists s'. split; [exact Hplay|].
  set (base := arm now (refs (syncRefs initial))) in *.
  set (r := current initial) in *.
  assert (Hspb : (secondsPerBeat r : Q) == 1 # 2) by reflexivity.
  assert (Htime : forall k, nextNoteTimeRef (beats r k base)
                            == now + (5 # 100) + inject_Z (Z.of_nat k) * (1 # 2)).
  { intros k. rewrite beats_time, Hspb. subst base. cbn [arm nextNoteTimeRef refs syncRefs
      with_refs initial set_volumeRef set_beatPatternRef audioContextRef set_audioContextRef
      set_currentBeatIndexRef set_nextNoteTimeRef]. q_consts. reflexivity. }
  rewrite Hrefs in Hlow, Hup. cbn [nextNoteTimeRef set_timerIDRef] in Hlow, Hup.
  rewrite Htime, ?Hspb in Hlow, Hup. q_consts.
  assert (Hn : n = 5%nat).
  { assert (H4 : inject_Z 4 < inject_Z (Z.of_nat n)) by (q_consts; lra).
    assert (H6 : inject_Z (Z.of_nat n) < inject_Z 6) by (q_consts; lra).
    rewrite <- Zlt_Qlt in H4, H6. lia. }
  subst n. rewrite Hrefs. cbn [notesQueue nextNoteTimeRef set_timerIDRef]. rewrite beats_queue.
  change (notesQueue base) with (@nil (ScheduledNote Q)). cbn [app seq map].
  split; [|split].
  3: rewrite Htime; simpl Z.of_nat; q_consts; lra.
  - cbn [beatIndex note_of].
    assert (Hidx : forall k, currentBeatIndexRef (beats r k base)
                             = Int ((0 + Z.of_nat k) mod 4)).
    { intros k. apply (beats_index r k base 0); [reflexivity | cbn; lia]. }
    rewrite !Hidx. reflexivity.
  - cbn [time note_of].
    repeat (apply Forall2_cons; [rewrite Htime; simpl Z.of_nat; q_consts; lra|]).
    apply Forall2_nil.
Qed.


Lemma commit_tempo_eq now s T :
  playing s ->
  T <> bpm (state s) ->
  commit now (onBpmChange T s) =
  scheduler (current (onBpmChange T s)) now
    (with_refs (arm now)
       (set_memo {| m_scheduler := current (onBpmChange T s); m_isPlaying := true |}
          (clearPendingTimer (syncRefs (onBpmChange T s))))).
Proof.
  intros (Hplaying & Hmemo & Hsched & _) HT. unfold commit.
  cbn [onBpmChange with_state state memo setBpm isPlaying].
  rewrite Hplaying, Hmemo, Hsched. unfold Render_eqb, current.
  cbn [r_bpm r_isMuted state onBpmChange with_state setBpm bpm isMuted Bool.eqb negb andb orb].
  destruct (Z.eqb_spec T (bpm (state s))) as [Heq|_]; [contradiction|].
  reflexivity.
Qed.

Lemma commit_pattern_eq now s i :
  playing s ->
  commit now (handleBeatClick i s) = Some (syncRefs (handleBeatClick i s)).
Proof.
  intros (Hplaying & Hmemo & Hsched & _). unfold commit.
  cbn [handleBeatClick with_state state memo setBeatPattern isPlaying].
  rewrite Hplaying, Hmemo, Hsched. unfold Render_eqb, current.
  cbn [r_bpm r_isMuted state handleBeatClick with_state setBeatPattern bpm isMuted
       Bool.eqb negb andb orb].
  rewrite Z.eqb_refl, Bool.eqb_reflx. reflexivity.
Qed.

(** C1, as amended.  In a playing state a tempo different from the current
    one, once rendered, restarts the scheduler: the pending timer is
    replaced, a note for beat 0 is queued 50 ms from now and the cursor
    stands one beat of the new tempo after it, whatever it was before.  A
    click on a beat slot, once rendered, changes the pattern ref only: the
    cursor, the queue and the pending timer stay as they are. *)
Theorem tempo_change_restarts_pattern_change_does_not now s T :
  playing s ->
  T <> bpm (state s) ->
  (30 <= T <= 300)%Z ->
  (exists s',
     commit now (onBpmChange T s) = Some s' /\
     notesQueue (refs s') =
       notesQueue (refs s) ++ [{| time := add now (lit 5 100); beatIndex := Int 0 |}] /\
     nextNoteTimeRef (refs s') == now + (5 # 100) + 60 / inject_Z T /\
     currentBeatIndexRef (refs s') = advance (length (beatPattern (state s))) (Int 0) /\
     timerIDRef (refs s') = Some (nextTimerID (host s)) /\
     pendingTimers (host s') =
       [(nextTimerID (host s), {| r_bpm := T; r_isMuted := isMuted (state s) |})]) /\
  (forall i, exists s',
     commit now (handleBeatClick i s) = Some s' /\
     beatPatternRef (refs s') = cycleAt i (beatPattern (state s)) /\
     notesQueue (refs s') = notesQueue (refs s) /\
     nextNoteTimeRef (refs s') = nextNoteTimeRef (refs s) /\
     currentBeatIndexRef (refs s') = currentBeatIndexRef (refs s) /\
     timerIDRef (refs s') = timerIDRef (refs s) /\
     host s' = host s).
Proof.
  intros Hplay HT Hrange. split.
  - rewrite (commit_tempo_eq now s T Hplay HT).
    destruct Hplay as (_ & _ & _ & Hrun).
    set (s1 := onBpmChange T s). set (r := current s1).
    set (s0 := with_refs (arm now) _).
    destruct (clearPendingTimer_frame (syncRefs s1)) as (Hr & _ & _ & Hid).
    assert (Hrefs0 : refs s0 = arm now (refs (syncRefs s1))).
    { subst s0. cbn [refs with_refs set_memo]. now rewrite Hr. }
    assert (Hpending0 : pendingTimers (host s0) = []).
    { subst s0. cbn [host with_refs set_memo].
      apply (clearPendingTimer_running (current s)). exact Hrun. }
    assert (Hid0 : nextTimerID (host s0) = nextTimerID (host s)).
    { subst s0. cbn [host with_refs set_memo]. now rewrite Hid. }
    assert (Hctx : audioContextRef (refs s0) <> None).
    { rewrite Hrefs0. apply arm_context. }
    assert (Hpos : (0 < r_bpm r)%Z) by (cbn; lia).
    destruct (scheduler_window r now s0 Hctx Hpos)
      as (s' & n & Hsched & Hrefs & _ & _ & Htimers & Hlow & Hin & _).
    rewrite Hrefs0, Hid0 in *. rewrite Hpending0 in Htimers.
    destruct (arm_cursor now (refs (syncRefs s1))) as (Hnext & Hidx & Hpat & Hqueue).
    assert (Hspb : 1 # 5 <= (secondsPerBeat r : Q)).
    { unfold secondsPerBeat. cbn [of_Z div QNumber r_bpm r current s1 onBpmChange
        with_state state setBpm bpm].
      assert (0 < inject_Z T) by (change 0 with (inject_Z 0); rewrite <- Zlt_Qlt; lia).
      assert (inject_Z T <= 300)
        by (change 300 with (inject_Z 300); rewrite <- Zle_Qle; lia).
      apply Qle_shift_div_l; [assumption|]. q_consts. lra. }
    assert (Hn : n = 1%nat).
    { destruct n as [|[|n]]; [exfalso | reflexivity | exfalso].
      - rewrite Hrefs in Hlow. cbn [beats nextNoteTimeRef set_timerIDRef] in Hlow.
        rewrite Hnext in Hlow. q_consts. lra.
      - specialize (Hin 1%nat ltac:(lia)). cbn [beats] in Hin.
        rewrite beat_time, Hnext in Hin. q_consts. lra. }
    subst n. exists s'. split; [exact Hsched|]. rewrite Hrefs.
    cbn [beats notesQueue nextNoteTimeRef currentBeatIndexRef timerIDRef set_timerIDRef].
    rewrite beat_queue, beat_time, beat_index, Hnext, Hidx, Hpat, Hqueue.
    split; [reflexivity|]. split; [|split; [reflexivity | split; [reflexivity | exact Htimers]]].
    q_consts. cbn [r_bpm r current s1 onBpmChange with_state state setBpm bpm].
    reflexivity.
  - intros i. rewrite (commit_pattern_eq now s i Hplay). eexists. split; [reflexivity|].
    cbn. auto 10.
Qed.

End Exact.

(** * Tap tempo and tempo bounds *)
Section TapGeneric.
Context {num : Type} `{JsNumber num}.

Lemma handleTap_refs now (s : Metronome num) :
  tapTimesRef (refs (handleTap now s)) =
    retain now (lastTapRef (refs s)) (tapTimesRef (refs s)) /\
  lastTapRef (refs (handleTap now s)) = now.
Proof.
  unfold handleTap. cbn [refs with_refs tapTimesRef set_tapTimesRef set_lastTapRef].
  destruct (1 <? length _)%nat; [|split; reflexivity].
  destruct (estimate _) as [z|]; [|split; reflexivity].
  destruct ((30 <=? z)%Z && (z <=? 300)%Z); split; reflexivity.
Qed.

Lemma handleTap_bpm now (s : Metronome num) :
  bpm (state (handleTap now s)) =
  let retained := retain now (lastTapRef (refs s)) (tapTimesRef (refs s)) in
  if (1 <? length retained)%nat then
    match estimate retained with
    | Some newBpm => if (30 <=? newBpm)%Z && (newBpm <=? 300)%Z then newBpm
                     else bpm (state s)
    | None => bpm (state s)
    end
  else bpm (state s).
Proof.
  unfold handleTap. cbn [refs with_refs tapTimesRef set_tapTimesRef set_lastTapRef].
  cbn zeta. destruct (1 <? length _)%nat; [|reflexivity].
  destruct (estimate _) as [z|]; [|reflexivity].
  destruct ((30 <=? z)%Z && (z <=? 300)%Z); reflexivity.
Qed.

Lemma retain_length now lastTap (l : list num) :
  (length l <= 4)%nat -> (1 <= length (retain now lastTap l) <= 4)%nat.
Proof.
  intros Hl. unfold retain. destruct (ltb _ _); [cbn; lia|]. cbn zeta.
  destruct (Nat.ltb_spec 4 (length (l ++ [now]))) as [Hlong|Hshort];
    rewrite length_app in *; cbn [length] in *.
  - destruct l as [|a l]; cbn [app tl length] in *; [lia|]. rewrite length_app. cbn. lia.
  - lia.
Qed.

Lemma retain_suffix now lastTap (l all : list num) :
  (exists dropped, all = dropped ++ l) ->
  exists dropped, all ++ [now] = dropped ++ retain now lastTap l.
Proof.
  intros [dropped ->]. unfold retain. destruct (ltb _ _).
  - exists (dropped ++ l). reflexivity.
  - cbn zeta. destruct (4 <? length (l ++ [now]))%nat.
    + destruct l as [|a l]; cbn [app tl].
      * exists (dropped ++ [now]). now rewrite !app_nil_r.
      * exists (dropped ++ [a]). now rewrite <- !app_assoc.
    + exists dropped. now rewrite app_assoc.
Qed.

Lemma taps_snoc times now (s : Metronome num) :
  taps (times ++ [now]) s = handleTap now (taps times s).
Proof. unfold taps. now rewrite fold_left_app. Qed.

(** From the mounted component on, the retained taps are at most four and
    are always the most recent ones, in the order they came: all taps so
    far are some dropped taps followed by the retained ones. *)
Lemma taps_window times :
  (length (tapTimesRef (refs (taps times (initial : Metronome num)))) <= 4)%nat /\
  exists dropped, times = dropped ++ tapTimesRef (refs (taps times initial)).
Proof.
  induction times as [|now times [IHlen IHsuf]] using rev_ind.
  - split; [cbn; lia | now exists []].
  - rewrite taps_snoc. destruct (handleTap_refs now (taps times initial)) as [-> _].
    split.
    + now apply retain_length.
    + now apply retain_suffix.
Qed.

Lemma estimate_two_taps (l : list num) newBpm :
  estimate l = Some newBpm -> (1 < length l)%nat.
Proof.
  destruct l as [|a [|b l]]; cbn; try discriminate. intros _. lia.
Qed.

(** C7, as amended.  [handleTap] stores the estimate of the retained taps
    when that is within [30, 300], and leaves the tempo as it was when the
    estimate is outside that range or there is none; so it keeps a tempo
    that is within [30, 300] within it.  The slider's handler stores the
    value it is given, unchecked: the tempo is within range after it when
    the widget delivered a value of its own range, [30, 240]. *)
Theorem tempo_bounds_at_handlers (s : Metronome num) :
  (forall now,
     ((30 <= bpm (state s) <= 300)%Z ->
      (30 <= bpm (state (handleTap now s)) <= 300)%Z) /\
     (forall newBpm,
        estimate (tapTimesRef (refs (handleTap now s))) = Some newBpm ->
        ((30 <= newBpm <= 300)%Z -> bpm (state (handleTap now s)) = newBpm) /\
        (~ (30 <= newBpm <= 300)%Z -> bpm (state (handleTap now s)) = bpm (state s))) /\
     (estimate (tapTimesRef (refs (handleTap now s))) = None ->
      bpm (state (handleTap now s)) = bpm (state s))) /\
  (forall value,
     bpm (state (onBpmChange value s)) = value /\
     ((30 <= value <= 240)%Z -> (30 <= bpm (state (onBpmChange value s)) <= 300)%Z)).
Proof.
  split.
  - intros now. destruct (handleTap_refs now s) as [Hret _].
    rewrite Hret, handleTap_bpm. cbn zeta.
    set (retained := retain now _ _). split; [|split].
    + intros Hold. destruct (1 <? length retained)%nat; [|exact Hold].
      destruct (estimate retained) as [z|]; [|exact Hold].
      destruct (30 <=? z)%Z eqn:Hlo, (z <=? 300)%Z eqn:Hhi; cbn [andb]; try exact Hold.
      apply Z.leb_le in Hlo, Hhi. lia.
    + intros newBpm Hest. pose proof (estimate_two_taps _ _ Hest) as Htwo.
      apply Nat.ltb_lt in Htwo. rewrite Htwo, Hest. split.
      * intros [Hlo Hhi]. apply Z.leb_le in Hlo, Hhi. now rewrite Hlo, Hhi.
      * intros Hout.
        destruct (30 <=? newBpm)%Z eqn:Hlo, (newBpm <=? 300)%Z eqn:Hhi; cbn [andb];
          try reflexivity.
        apply Z.leb_le in Hlo, Hhi. lia.
    + intros ->. now destruct (1 <? length retained)%nat.
  - intros value. cbn. split; [reflexivity | lia].
Qed.

End TapGeneric.

Section TapExact.

Lemma estimate_500 (t : Q) :
  estimate [t; t + 500; t + 1000; t + 1500] = Some 120%Z.
Proof.
  unfold estimate, intervals, Math_round, sum.
  cbn [tl combine map fst snd fold_left length Z.of_nat Pos.of_succ_nat Pos.succ exact QNumber
       sub add div of_Z].
  f_equal.
  assert (Havg : (t + 500 - t + (t + 1000 - (t + 500)) + (t + 1500 - (t + 1000))) / inject_Z 3
                 == 500) by (q_consts; field).
  rewrite Havg. reflexivity.
Qed.

Lemma retain_push (now lastTap : Q) l :
  now - lastTap <= 2000 ->
  retain now lastTap l =
  if (4 <? length (l ++ [now]))%nat then tl (l ++ [now]) else l ++ [now].
Proof.
  intros Hgap. unfold retain.
  replace (ltb (of_Z 2000) (sub now lastTap)) with false; [reflexivity|].
  symmetry. apply Qltb_false. q_consts. exact Hgap.
Qed.

Lemma retain_reset (now lastTap : Q) l :
  2000 < now - lastTap -> retain now lastTap l = [now].
Proof.
  intros Hgap. unfold retain.
  replace (ltb (of_Z 2000) (sub now lastTap)) with true; [reflexivity|].
  symmetry. apply Qltb_true. q_consts. exact Hgap.
Qed.

Lemma retain_four (t lastTap : Q) l :
  (length l <= 4)%nat ->
  retain (t + 1500) (t + 1000)
    (retain (t + 1000) (t + 500) (retain (t + 500) t (retain t lastTap l))) =
  [t; t + 500; t + 1000; t + 1500].
Proof.
  intros Hlen.
  rewrite (retain_push (t + 1500) (t + 1000)), (retain_push (t + 1000) (t + 500)),
    (retain_push (t + 500) t) by lra.
  unfold retain. destruct (ltb (of_Z 2000) (sub t lastTap)); [reflexivity|].
  destruct l as [|a [|b [|c [|d [|e l]]]]]; cbn in Hlen |- *; try reflexivity. lia.
Qed.

Lemma four_taps_retained (t : Q) (s : Metronome Q) :
  (length (tapTimesRef (refs s)) <= 4)%nat ->
  tapTimesRef (refs (taps [t; t + 500; t + 1000; t + 1500] s)) =
  [t; t + 500; t + 1000; t + 1500].
Proof.
  intros Hlen. unfold taps. cbn [fold_left].
  rewrite !(fun now s => proj1 (handleTap_refs now s)),
          !(fun now s => proj2 (handleTap_refs now s)).
  now apply retain_four.
Qed.

(** C6.  With at most four taps retained (as in every state the component
    reaches), four taps 500 ms apart leave exactly those four retained and
    set the tempo to 120; a tap more than 2000 ms after the previous one
    leaves only itself retained and the tempo unchanged; and no tap leaves
    more than four retained. *)
Theorem tap_tempo (s : Metronome Q) :
  (length (tapTimesRef (refs s)) <= 4)%nat ->
  (forall t,
     tapTimesRef (refs (taps [t; t + 500; t + 1000; t + 1500] s)) =
       [t; t + 500; t + 1000; t + 1500] /\
     estimate [t; t + 500; t + 1000; t + 1500] = Some 120%Z /\
     bpm (state (taps [t; t + 500; t + 1000; t + 1500] s)) = 120%Z) /\
  (forall now,
     2000 < now - lastTapRef (refs s) ->
     tapTimesRef (refs (handleTap now s)) = [now] /\
     lastTapRef (refs (handleTap now s)) = now /\
     state (handleTap now s) = state s) /\
  (forall now, (length (tapTimesRef (refs (handleTap now s))) <= 4)%nat).
Proof.
  intros Hlen. split; [|split].
  - intros t. pose proof (four_taps_retained t s Hlen) as Hret.
    split; [exact Hret|]. split; [apply estimate_500|].
    revert Hret. unfold taps. cbn [fold_left].
    set (s3 := handleTap (t + 1000) _). intros Hret.
    rewrite handleTap_bpm. cbn zeta.
    destruct (handleTap_refs (t + 1500) s3) as [<- _]. rewrite Hret, estimate_500.
    reflexivity.
  - intros now Hgap. destruct (handleTap_refs now s) as [Htaps Hlast].
    rewrite Htaps, Hlast, (retain_reset now _ _ Hgap).
    split; [reflexivity|]. split; [reflexivity|].
    unfold handleTap. cbn [refs with_refs tapTimesRef set_tapTimesRef set_lastTapRef].
    rewrite (retain_reset now _ _ Hgap). reflexivity.
  - intros now. destruct (handleTap_refs now s) as [-> _].
    now apply retain_length.
Qed.

End TapExact.

(** * Concrete runs *)
Lemma playing_started : playing started.
Proof.
  repeat split; try discriminate.
  exists 1%nat. split; reflexivity.
Qed.

Lemma playing_played_one_second : playing played_one_second.
Proof.
  repeat split; try discriminate.
  exists 41%nat. split; reflexivity.
Qed.

(** Against C1: one second into playback the cursor is (1.55, 3); a change
    of tempo to 100, rendered at clock 1, leaves it at (1.65, 1), queues a
    second note for onset 1.05 and replaces the pending timer. *)
Lemma tempo_change_moves_cursor :
  ticks (nominalClock 0 40) started = Some played_one_second /\
  isPlaying (state played_one_second) = true /\
  cursor played_one_second = (31 # 20, Int 3) /\
  pendingTimers (host played_one_second) = [(41%nat, {| r_bpm := 120; r_isMuted := false |})] /\
  exists s',
    commit 1 (onBpmChange 100 played_one_second) = Some s' /\
    cursor s' = (33 # 20, Int 1) /\
    pendingTimers (host s') = [(42%nat, {| r_bpm := 100; r_isMuted := false |})] /\
    queued s' = queued played_one_second ++ [(21 # 20, Int 0)].
Proof.
  split; [vm_compute; reflexivity|]. repeat (split; [reflexivity|]).
  eexists. split; [vm_compute; reflexivity|]. repeat split.
Qed.

(** Against C3: after two seconds at 120 BPM, five notes are queued. *)
Lemma two_seconds_schedule_five_notes :
  option_map queued (play 0 (nominalClock 0 80) initial) =
  Some [(1 # 20, Int 0); (11 # 20, Int 1); (21 # 20, Int 2); (31 # 20, Int 3); (41 # 20, Int 0)].
Proof. vm_compute. reflexivity. Qed.

(** Against C4: after the callback at clock 0.475 the cursor is at 1.05,
    0.575 s ahead of the clock, more than 100 ms + 25 ms. *)
Lemma cursor_beyond_window_plus_lookahead :
  last (nominalClock (0 : Q) 19) 0 == 475 # 1000 /\
  option_map cursor (play 0 (nominalClock 0 19) initial) = Some (21 # 20, Int 2) /\
  ~ ((21 # 20) - (475 # 1000) <= scheduleAheadTime + lookahead / 1000).
Proof.
  split; [reflexivity|]. split; [vm_compute; reflexivity|].
  vm_compute. intros Hle. apply Hle. reflexivity.
Qed.

(** Against C7: the slider's handler stores 1000. *)
Lemma slider_value_not_checked :
  bpm (state (onBpmChange 1000 (initial : Metronome Q))) = 1000%Z /\
  ~ (30 <= 1000 <= 300)%Z.
Proof. split; [reflexivity | lia]. Qed.

(** The theorems above, at these runs *)

Lemma tempo_change_restarts_witness :
  playing played_one_second /\ 100%Z <> bpm (state played_one_second) /\
  (30 <= 100 <= 300)%Z /\
  exists s',
    commit 1 (onBpmChange 100 played_one_second) = Some s' /\
    notesQueue (refs s') =
      notesQueue (refs played_one_second) ++ [{| time := add 1 (lit 5 100); beatIndex := Int 0 |}].
Proof.
  assert (Hne : 100%Z <> bpm (state played_one_second)) by discriminate.
  assert (Hrange : (30 <= 100 <= 300)%Z) by lia.
  split; [exact playing_played_one_second|]. split; [exact Hne|]. split; [exact Hrange|].
  destruct (tempo_change_restarts_pattern_change_does_not 1 played_one_second 100
              playing_played_one_second Hne Hrange) as [(s' & Hc & Hq & _) _].
  exists s'. split; assumption.
Defined.

Lemma onsets_arithmetic_witness :
  playing started /\ (30 <= bpm (state started) <= 300)%Z /\
  ticks (nominalClock 0 80) started = Some played_two_seconds /\
  map (fun note => (Qred (time note), beatIndex note))
      (scheduled (refs started) (refs played_two_seconds))
    = [(11 # 20, Int 1); (21 # 20, Int 2); (31 # 20, Int 3); (41 # 20, Int 0)] /\
  cursor started = (11 # 20, Int 1) /\
  cursor played_two_seconds = (51 # 20, Int 1) /\
  (forall k note,
     nth_error (scheduled (refs started) (refs played_two_seconds)) k = Some note ->
     time note ==
     nextNoteTimeRef (refs started) + inject_Z (Z.of_nat k) * (60 / inject_Z (bpm (state started)))) /\
  nextNoteTimeRef (refs played_two_seconds) ==
    nextNoteTimeRef (refs started)
    + inject_Z (Z.of_nat (length (scheduled (refs started) (refs played_two_seconds))))
      * (60 / inject_Z (bpm (state started))) /\
  (forall c, In c (nominalClock 0 80) ->
     c + (1 # 10) <= nextNoteTimeRef (refs played_two_seconds)) /\
  (forall note, In note (scheduled (refs started) (refs played_two_seconds)) ->
     exists c, In c (nominalClock 0 80) /\ time note < c + (1 # 10)).
Proof.
  assert (Hrange : (30 <= bpm (state started) <= 300)%Z) by (cbn; lia).
  assert (Hrun : ticks (nominalClock 0 80) started = Some played_two_seconds)
    by (vm_compute; reflexivity).
  split; [exact playing_started|]. split; [exact Hrange|]. split; [exact Hrun|].
  split; [vm_compute; reflexivity|]. split; [reflexivity|]. split; [reflexivity|].
  destruct (onsets_arithmetic (nominalClock 0 80) started playing_started Hrange)
    as (s' & Hticks & Hnotes).
  rewrite Hrun in Hticks. injection Hticks as <-. exact Hnotes.
Defined.

Lemma two_seconds_at_120_witness :
  0 <= 0 <= 1000000 /\
  ascendingb 0 (nominalClock 0 80) = true /\
  0 + (1975 # 1000) <= last (nominalClock 0 80) 0 /\
  last (nominalClock 0 80) 0 <= 0 + 2 /\
  exists s',
    play 0 (nominalClock 0 80) initial = Some s' /\
    map beatIndex (notesQueue (refs s')) = [Int 0; Int 1; Int 2; Int 3; Int 0] /\
    Forall2 Qeq (map time (notesQueue (refs s')))
      [0 + (5 # 100); 0 + (5 # 100) + (1 # 2); 0 + (5 # 100) + 1;
       0 + (5 # 100) + (3 # 2); 0 + (5 # 100) + 2].
Proof.
  assert (Hclock : 0 <= 0 <= 1000000) by (split; discriminate).
  assert (Hasc : ascendingb 0 (nominalClock 0 80) = true) by (vm_compute; reflexivity).
  assert (Hlate : 0 + (1975 # 1000) <= last (nominalClock 0 80) 0) by (vm_compute; discriminate).
  assert (Hend : last (nominalClock 0 80) 0 <= 0 + 2) by (vm_compute; discriminate).
  repeat (split; [assumption|]).
  destruct (two_seconds_at_120 0 (nominalClock 0 80) Hclock Hasc Hlate Hend)
    as (s' & Hp & Hi & Ht & _).
  exists s'. repeat (split; [assumption|]). exact Ht.
Defined.

Lemma cursor_within_window_plus_one_beat_witness :
  stopped (initial : Metronome Q) /\ (30 <= bpm (state (initial : Metronome Q)) <= 300)%Z /\
  ascendingb 0 (nominalClock 0 19) = true /\
  exists s',
    play 0 (nominalClock 0 19) initial = Some s' /\
    last (nominalClock 0 19) 0 + (1 # 10) <= nextNoteTimeRef (refs s') /\
    nextNoteTimeRef (refs s') - last (nominalClock 0 19) 0
      < (1 # 10) + 60 / inject_Z (bpm (state (initial : Metronome Q))).
Proof.
  assert (Hrange : (30 <= bpm (state (initial : Metronome Q)) <= 300)%Z) by (cbn; lia).
  assert (Hasc : ascendingb 0 (nominalClock 0 19) = true) by (vm_compute; reflexivity).
  split; [exact stopped_initial|]. split; [exact Hrange|]. split; [exact Hasc|].
  destruct (cursor_within_window_plus_one_beat 0 (nominalClock 0 19) initial
              stopped_initial Hrange Hasc) as (s' & Hp & Hlow & Hup & _).
  exists s'. repeat split; assumption.
Defined.

Lemma index_past_pattern_witness :
  beatPatternRef (refs shrunk_mid_flight) = [Accent; Normal; Normal] /\
  currentBeatIndexRef (refs shrunk_mid_flight) = Int 3 /\
  audioContextRef (scheduleNote {| r_bpm := 120; r_isMuted := false |}
                     (nextNoteTimeRef (refs shrunk_mid_flight)) (Int 3) (refs shrunk_mid_flight))
    = audioContextRef (refs shrunk_mid_flight) /\
  currentBeatIndexRef (beat {| r_bpm := 120; r_isMuted := false |} (refs shrunk_mid_flight))
    = Int 1.
Proof.
  assert (Hpat : beatPatternRef (refs shrunk_mid_flight) <> []) by discriminate.
  assert (Hidx : currentBeatIndexRef (refs shrunk_mid_flight) = Int 3) by reflexivity.
  assert (Hpast : (Z.of_nat (length (beatPatternRef (refs shrunk_mid_flight))) <= 3)%Z)
    by (cbn; lia).
  split; [reflexivity|]. split; [exact Hidx|].
  destruct (index_past_pattern_skipped_then_wraps {| r_bpm := 120; r_isMuted := false |}
              (refs shrunk_mid_flight) 3 Hpat Hidx Hpast) as (Hsilent & Hwrap & _).
  split; [exact Hsilent | exact Hwrap].
Defined.

Lemma mute_slot_witness :
  js_get (beatPatternRef (refs second_slot_muted)) (Int 1) = Some Mute /\
  notesQueue (scheduleNote {| r_bpm := 120; r_isMuted := false |} (11 # 20) (Int 1)
                (refs second_slot_muted))
    = notesQueue (refs second_slot_muted) ++ [{| time := 11 # 20; beatIndex := Int 1 |}] /\
  audioContextRef (scheduleNote {| r_bpm := 120; r_isMuted := false |} (11 # 20) (Int 1)
                     (refs second_slot_muted))
    = audioContextRef (refs second_slot_muted).
Proof.
  assert (Hmute : js_get (beatPatternRef (refs second_slot_muted)) (Int 1) = Some Mute)
    by reflexivity.
  split; [exact Hmute|].
  exact (mute_slot_queued_not_synthesised {| r_bpm := 120; r_isMuted := false |} (11 # 20)
           (Int 1) (refs second_slot_muted) Hmute).
Defined.

Lemma beat_indices_periodic_witness :
  running {| r_bpm := 120; r_isMuted := false |} started /\
  ticks (nominalClock 0 200) started = Some played_five_seconds /\
  currentBeatIndexRef (refs started) = Int 1 /\
  map beatIndex (scheduled (refs started) (refs played_five_seconds))
    = [Int 1; Int 2; Int 3; Int 0; Int 1; Int 2; Int 3; Int 0; Int 1; Int 2] /\
  forall i,
    (i + length (beatPatternRef (refs started))
       < length (scheduled (refs started) (refs played_five_seconds)))%nat ->
    nth_error (map beatIndex (scheduled (refs started) (refs played_five_seconds))) i =
    nth_error (map beatIndex (scheduled (refs started) (refs played_five_seconds)))
              (i + length (beatPatternRef (refs started))).
Proof.
  assert (Hrun : running {| r_bpm := 120; r_isMuted := false |} started)
    by apply playing_started.
  assert (Hticks : ticks (nominalClock 0 200) started = Some played_five_seconds)
    by (vm_compute; reflexivity).
  assert (Hidx : currentBeatIndexRef (refs started) = Int 1) by reflexivity.
  assert (Hz : (0 <= 1 < Z.of_nat (length (beatPatternRef (refs started))))%Z) by (cbn; lia).
  split; [exact Hrun|]. split; [exact Hticks|]. split; [exact Hidx|]. split; [reflexivity|].
  exact (proj2 (beat_indices_periodic {| r_bpm := 120; r_isMuted := false |}
                  (nominalClock 0 200) started played_five_seconds 1 Hrun Hticks Hidx Hz)).
Defined.

Lemma tap_tempo_witness :
  (length (tapTimesRef (refs (initial : Metronome Q))) <= 4)%nat /\
  bpm (state (taps [3000; 3000 + 500; 3000 + 1000; 3000 + 1500]%Q (initial : Metronome Q)))
    = 120%Z /\
  tapTimesRef (refs (handleTap 9000%Q (taps [3000; 3000 + 500; 3000 + 1000; 3000 + 1500]%Q
                                       (initial : Metronome Q)))) = [9000%Q].
Proof.
  assert (Hlen : (length (tapTimesRef (refs (initial : Metronome Q))) <= 4)%nat)
    by (cbn; lia).
  split; [exact Hlen|].
  split.
  - exact (proj2 (proj2 (proj1 (tap_tempo initial Hlen) 3000%Q))).
  - vm_compute. reflexivity.
Defined.

Lemma scheduleNote_always_queues_witness :
  m_isPlaying (memo started) = true /\
  audioContextRef (refs started) <> None /\
  Forall (fun n => ltb (time n) 1 = true) (notesQueue (refs started)) /\
  ltb (11 # 20) (1 : Q) = true /\
  activeBeatIndex
    (state (draw 1 (with_refs (scheduleNote {| r_bpm := 120; r_isMuted := true |}
                                 (11 # 20) (Int 7)) started))) = Int 7.
Proof.
  assert (Hplaying : m_isPlaying (memo started) = true) by reflexivity.
  assert (Hctx : audioContextRef (refs started) <> None) by discriminate.
  assert (Hdue : Forall (fun n => ltb (time n) 1 = true) (notesQueue (refs started)))
    by (repeat constructor).
  assert (Ht : ltb (11 # 20) (1 : Q) = true) by reflexivity.
  repeat (split; [assumption|]).
  exact (proj2 (scheduleNote_always_queues {| r_bpm := 120; r_isMuted := true |}
                  (11 # 20) (Int 7) (refs started))
           started 1 eq_refl Hplaying Hctx Hdue Ht).
Defined.

Lemma tempo_bounds_witness :
  (30 <= bpm (state (handleTap 3000%Q (initial : Metronome Q))) <= 300)%Z /\
  estimate (tapTimesRef (refs (handleTap 3400%Q (handleTap 3000%Q (initial : Metronome Q)))))
    = Some 150%Z /\
  (30 <= 150 <= 300)%Z /\
  bpm (state (handleTap 3000%Q (initial : Metronome Q))) = 120%Z /\
  bpm (state (handleTap 3400%Q (handleTap 3000%Q (initial : Metronome Q)))) = 150%Z /\
  estimate (tapTimesRef (refs (handleTap 3100%Q (handleTap 3000%Q (initial : Metronome Q)))))
    = Some 600%Z /\
  ~ (30 <= 600 <= 300)%Z /\
  bpm (state (handleTap 3100%Q (handleTap 3000%Q (initial : Metronome Q)))) = 120%Z /\
  (30 <= bpm (state (handleTap 3100%Q (handleTap 3000%Q (initial : Metronome Q)))) <= 300)%Z /\
  estimate (tapTimesRef (refs (handleTap 3000%Q (initial : Metronome Q)))) = None /\
  bpm (state (handleTap 3000%Q (initial : Metronome Q))) = bpm (state (initial : Metronome Q)) /\
  (30 <= 200 <= 240)%Z /\
  (30 <= bpm (state (onBpmChange 200 (initial : Metronome Q))) <= 300)%Z.
Proof.
  assert (Hold : (30 <= bpm (state (handleTap 3000%Q (initial : Metronome Q))) <= 300)%Z)
    by (cbn; lia).
  assert (Hin : estimate (tapTimesRef (refs (handleTap 3400%Q (handleTap 3000%Q
                                                               (initial : Metronome Q)))))
                = Some 150%Z) by reflexivity.
  assert (Hrange : (30 <= 150 <= 300)%Z) by lia.
  assert (Hest : estimate (tapTimesRef (refs (handleTap 3100%Q (handleTap 3000%Q
                                                                (initial : Metronome Q)))))
                 = Some 600%Z) by reflexivity.
  assert (Hout : ~ (30 <= 600 <= 300)%Z) by lia.
  assert (Hnone : estimate (tapTimesRef (refs (handleTap 3000%Q (initial : Metronome Q)))) = None)
    by reflexivity.
  assert (Hslider : (30 <= 200 <= 240)%Z) by lia.
  split; [exact Hold|]. split; [exact Hin|]. split; [exact Hrange|].
  split; [reflexivity|].
  split; [exact (proj1 (proj1 (proj2 (proj1 (tempo_bounds_at_handlers (handleTap 3000%Q initial))
                                        3400%Q)) 150%Z Hin) Hrange)|].
  split; [exact Hest|]. split; [exact Hout|].
  split; [exact (proj2 (proj1 (proj2 (proj1 (tempo_bounds_at_handlers (handleTap 3000%Q initial))
                                        3100%Q)) 600%Z Hest) Hout)|].
  split; [exact (proj1 (proj1 (tempo_bounds_at_handlers (handleTap 3000%Q initial)) 3100%Q) Hold)|].
  split; [exact Hnone|].
  split; [exact (proj2 (proj2 (proj1 (tempo_bounds_at_handlers initial) 3000%Q)) Hnone)|].
  split; [exact Hslider|].
  exact (proj2 (proj2 (tempo_bounds_at_handlers initial) 200%Z) Hslider).
Defined.

(** Double precision *)

(** The literals [0.5] and [0.05] as doubles. *)
Example lit_float :
  float_exact (lit 1 2) = Some (1 # 2) /\
  float_exact (lit 5 100) = Some (3602879701896397 # 72057594037927936).
Proof. split; vm_compute; reflexivity. Qed.


Example double_precision_two_seconds :
  option_map (fun s => map beatIndex (notesQueue (refs s))) played_two_seconds_double
    = Some [Int 0; Int 1; Int 2; Int 3; Int 0] /\
  option_map (fun s => map (fun p => close (time (fst p)) (fst (snd p)))
                         (combine (notesQueue (refs s)) (queued played_two_seconds)))
    played_two_seconds_double
    = Some [true; true; true; true; true].
Proof. split; vm_compute; reflexivity. Qed.

(** In doubles the fifth note needs the margin.  Started at 0.01 with one
    callback at the double next above 1.96, 1.95 s and a rounding after the
    start: the horizon [clock + 0.1] and the fifth onset round to the same
    double, and four notes are queued.  With the callback 25 ms later, at
    0.01 + 1.975, the fifth is queued, as it is for a start at [10^6]. *)
Example double_precision_at_the_rim :
  option_map (fun s => map beatIndex (notesQueue (refs s)))
             (play (lit 1 100) [PrimFloat.next_up (lit 196 100)] (initial : Metronome float))
    = Some [Int 0; Int 1; Int 2; Int 3] /\
  option_map (fun s => map beatIndex (notesQueue (refs s)))
             (play (lit 1 100) [add (lit 1 100) (lit 1975 1000)] (initial : Metronome float))
    = Some [Int 0; Int 1; Int 2; Int 3; Int 0] /\
  option_map (fun s => map beatIndex (notesQueue (refs s)))
             (play (of_Z 1000000) [add (of_Z 1000000) (lit 1975 1000)] (initial : Metronome float))
    = Some [Int 0; Int 1; Int 2; Int 3; Int 0].
Proof. split; [|split]; vm_compute; reflexivity. Qed.

(** * Further properties of the component *)
Section Handlers.
Context {num : Type} `{JsNumber num}.

Lemma cycle_thrice b : b <> Hole -> cycle (cycle (cycle b)) = b.
Proof. destruct b; cbn; congruence. Qed.

Lemma cycle_no_hole b : cycle b <> Hole.
Proof. now destruct b. Qed.

Lemma cycleAt_length i pattern :
  (i < length pattern)%nat -> length (cycleAt i pattern) = length pattern.
Proof.
  revert i. induction pattern as [|b rest IH]; intros [|i] Hi; cbn in *; try lia.
  rewrite IH; lia.
Qed.

Lemma cycleAt_grows i pattern :
  (length pattern <= i)%nat ->
  cycleAt i pattern = pattern ++ repeat Hole (i - length pattern) ++ [Normal].
Proof.
  revert i. induction pattern as [|b rest IH]; intros i Hi.
  - rewrite Nat.sub_0_r. now destruct i.
  - destruct i as [|i]; cbn in *; [lia|]. rewrite IH by lia. reflexivity.
Qed.

Lemma cycleAt_thrice i pattern :
  (i < length pattern)%nat -> nth_error pattern i <> Some Hole ->
  cycleAt i (cycleAt i (cycleAt i pattern)) = pattern.
Proof.
  revert i. induction pattern as [|b rest IH]; intros [|i] Hi Hslot; cbn in *; try lia.
  - rewrite cycle_thrice; congruence.
  - rewrite IH; [reflexivity | lia | exact Hslot].
Qed.

Lemma cycleAt_nth i pattern j :
  (i < length pattern)%nat ->
  nth_error (cycleAt i pattern) j =
  if (j =? i)%nat then option_map cycle (nth_error pattern j) else nth_error pattern j.
Proof.
  revert i j. induction pattern as [|b rest IH]; intros i j Hi; cbn in Hi; [lia|].
  destruct i as [|i], j as [|j]; cbn; try reflexivity. apply IH. lia.
Qed.

Lemma cycleAt_no_hole i pattern :
  (i < length pattern)%nat -> ~ In Hole pattern -> ~ In Hole (cycleAt i pattern).
Proof.
  revert i. induction pattern as [|b rest IH]; intros [|i] Hi Hno; cbn in *; try lia.
  - intros [Hb | Hin]; [now apply (cycle_no_hole b) | tauto].
  - intros [Hb | Hin]; [tauto|]. apply (IH i); [lia | tauto | exact Hin].
Qed.

(** Clicking the button of a slot cycles that slot alone (Normal, Accent,
    Mute, Normal; a hole becomes Normal) and keeps the length of the
    pattern, and three clicks on a slot that is not a hole give the pattern
    back.  Called with an index at or past the end of the pattern,
    [handleBeatClick] writes a Normal beat there and the array grows to
    [index + 1] slots, with holes in between.  Either way the click changes
    no ref, so the scheduler sees the new pattern only after the render that
    follows. *)
Theorem handleBeatClick_cycles_one_slot i (s : Metronome num) :
  let pattern := beatPattern (state s) in
  let clicked := beatPattern (state (handleBeatClick i s)) in
  ((i < length pattern)%nat ->
   length clicked = length pattern /\
   nth_error clicked i = option_map cycle (nth_error pattern i) /\
   (forall j, j <> i -> nth_error clicked j = nth_error pattern j) /\
   (nth_error pattern i <> Some Hole ->
    beatPattern (state (handleBeatClick i (handleBeatClick i (handleBeatClick i s))))
      = pattern)) /\
  ((length pattern <= i)%nat ->
   clicked = pattern ++ repeat Hole (i - length pattern) ++ [Normal] /\
   length clicked = S i) /\
  refs (handleBeatClick i s) = refs s.
Proof.
  cbn. split; [|split; [|reflexivity]].
  - intros Hi. split; [now apply cycleAt_length|]. split; [|split].
    + rewrite cycleAt_nth, Nat.eqb_refl by exact Hi. reflexivity.
    + intros j Hj. rewrite cycleAt_nth by exact Hi. apply Nat.eqb_neq in Hj. now rewrite Hj.
    + intros Hslot. now apply cycleAt_thrice.
  - intros Hi. rewrite cycleAt_grows by exact Hi. split; [reflexivity|].
    rewrite !length_app, repeat_length. cbn [length]. lia.
Qed.

Lemma removelast_length {A} (l : list A) : length (removelast l) = (length l - 1)%nat.
Proof.
  induction l as [|a [|b l] IH]; cbn in *; auto. rewrite IH. lia.
Qed.

Lemma removelast_nth {A} (l : list A) j :
  (j < length l - 1)%nat -> nth_error (removelast l) j = nth_error l j.
Proof.
  revert j. induction l as [|a [|b l] IH]; intros j Hj; cbn in *; try lia.
  destruct j as [|j]; [reflexivity|]. cbn. apply IH. lia.
Qed.

Lemma changeTimeSignature_pattern delta (s : Metronome num) :
  beatPattern (state (changeTimeSignature delta s)) =
  if (0 <? delta)%Z
  then (if (length (beatPattern (state s)) <? 12)%nat
        then beatPattern (state s) ++ [Normal] else beatPattern (state s))
  else (if (1 <? length (beatPattern (state s)))%nat
        then removelast (beatPattern (state s)) else beatPattern (state s)).
Proof.
  unfold changeTimeSignature. cbn zeta. destruct (index_ge _ _); reflexivity.
Qed.

Lemma changeTimeSignature_length delta (s : Metronome num) :
  ((1 <= length (beatPattern (state s)))%nat ->
   (1 <= length (beatPattern (state (changeTimeSignature delta s))))%nat) /\
  ((length (beatPattern (state s)) <= 12)%nat ->
   (length (beatPattern (state (changeTimeSignature delta s))) <= 12)%nat).
Proof.
  rewrite changeTimeSignature_pattern. set (old := beatPattern (state s)).
  destruct (0 <? delta)%Z.
  - destruct (Nat.ltb_spec (length old) 12); [rewrite length_app; cbn|]; lia.
  - destruct (Nat.ltb_spec 1 (length old)); [rewrite removelast_length|]; lia.
Qed.

Lemma removelast_In {A} (a : A) l : In a (removelast l) -> In a l.
Proof.
  induction l as [|b [|c l] IH]; cbn in *; [tauto | tauto |].
  intros [-> | Hin]; [now left | right; now apply IH].
Qed.

Lemma changeTimeSignature_no_hole delta (s : Metronome num) :
  ~ In Hole (beatPattern (state s)) ->
  ~ In Hole (beatPattern (state (changeTimeSignature delta s))).
Proof.
  intros Hno. rewrite changeTimeSignature_pattern.
  destruct (0 <? delta)%Z.
  - destruct (length _ <? 12)%nat; [|exact Hno].
    intros Hin. apply in_app_or in Hin. destruct Hin as [Hin | [Hin | []]];
      [now apply Hno | discriminate].
  - destruct (1 <? length _)%nat; [|exact Hno].
    intros Hin. now apply Hno, removelast_In.
Qed.

(** Changing the time signature keeps the pattern between 1 and 12 beats:
    a beat added is a Normal beat at the end, a beat removed is the last
    one, the other slots stay as they are, and at 12 (at 1) adding
    (removing) does nothing; removing after adding gives the pattern back. *)
Theorem changeTimeSignature_bounds delta (s : Metronome num) :
  let old := beatPattern (state s) in
  let new := beatPattern (state (changeTimeSignature delta s)) in
  ((1 <= length old <= 12)%nat -> (1 <= length new <= 12)%nat) /\
  ((0 < delta)%Z -> new = if (length old <? 12)%nat then old ++ [Normal] else old) /\
  ((delta <= 0)%Z -> length new = (if (1 <? length old)%nat then length old - 1 else length old)%nat) /\
  (forall j, (j < Nat.min (length old) (length new))%nat -> nth_error new j = nth_error old j) /\
  ((1 <= length old < 12)%nat ->
   beatPattern (state (changeTimeSignature (-1) (changeTimeSignature 1 s))) = old).
Proof.
  cbn zeta. split.
  { intros Hold. destruct (changeTimeSignature_length delta s). lia. }
  rewrite changeTimeSignature_pattern. set (old := beatPattern (state s)).
  split; [|split; [|split]].
  - intros Hpos. apply Z.ltb_lt in Hpos. now rewrite Hpos.
  - intros Hneg. replace (0 <? delta)%Z with false by (symmetry; apply Z.ltb_ge; lia).
    destruct (1 <? length old)%nat; [apply removelast_length | reflexivity].
  - intros j. destruct (0 <? delta)%Z.
    + destruct (length old <? 12)%nat; [|reflexivity].
      rewrite length_app. cbn [length]. intros Hj. apply nth_error_app1. lia.
    + destruct (1 <? length old)%nat; [|reflexivity].
      rewrite removelast_length. intros Hj. apply removelast_nth. lia.
  - intros Hroom. rewrite changeTimeSignature_pattern, (changeTimeSignature_pattern 1 s).
    fold old. cbn [Z.ltb Z.compare].
    replace (length old <? 12)%nat with true by (symmetry; apply Nat.ltb_lt; lia).
    rewrite length_app. cbn [length].
    replace (1 <? length old + 1)%nat with true by (symmetry; apply Nat.ltb_lt; lia).
    apply removelast_last.
Qed.

Lemma Render_eqb_refl r : Render_eqb r r = true.
Proof. unfold Render_eqb. now rewrite Z.eqb_refl, Bool.eqb_reflx. Qed.

Lemma commit_unchanged now (s : Metronome num) :
  m_isPlaying (memo s) = isPlaying (state s) ->
  m_scheduler (memo s) = current s ->
  commit now s = Some (syncRefs s).
Proof.
  intros Hplaying Hsched. unfold commit.
  rewrite Hplaying, Hsched, Bool.eqb_reflx, Render_eqb_refl. reflexivity.
Qed.

(** A change of time signature rendered during playback does not restart
    the scheduler: onset, queue and pending timer stay as they are, the
    pattern ref takes the new pattern, and the cursor's index is the old
    one unless that is past the new pattern, in which case it is 0; either
    way the scheduler's next read is within the pattern. *)
Theorem changeTimeSignature_rendered now delta (s : Metronome num) :
  playing s ->
  beatPattern (state s) <> [] ->
  let new := beatPattern (state (changeTimeSignature delta s)) in
  let index := currentBeatIndexRef (refs s) in
  commit now (changeTimeSignature delta s) = Some (syncRefs (changeTimeSignature delta s)) /\
  beatPatternRef (refs (syncRefs (changeTimeSignature delta s))) = new /\
  currentBeatIndexRef (refs (syncRefs (changeTimeSignature delta s)))
    = (if index_ge index (length new) then Int 0 else index) /\
  index_ge (currentBeatIndexRef (refs (syncRefs (changeTimeSignature delta s)))) (length new)
    = false /\
  nextNoteTimeRef (refs (syncRefs (changeTimeSignature delta s))) = nextNoteTimeRef (refs s) /\
  notesQueue (refs (syncRefs (changeTimeSignature delta s))) = notesQueue (refs s) /\
  host (syncRefs (changeTimeSignature delta s)) = host s.
Proof.
  intros (Hplaying & Hmemo & Hsched & _) Hpattern. cbn zeta.
  assert (Hlen : (1 <= length (beatPattern (state (changeTimeSignature delta s))))%nat).
  { apply changeTimeSignature_length.
    destruct (beatPattern (state s)); [congruence | cbn; lia]. }
  revert Hlen. unfold changeTimeSignature. cbn zeta.
  set (new := if (0 <? delta)%Z then _ else _).
  cbn [state with_state setBeatPattern beatPattern refs].
  destruct (index_ge (currentBeatIndexRef (refs s)) (length new)) eqn:Hge;
    cbn [state with_state with_refs setBeatPattern beatPattern refs]; intros Hlen.
  - split.
    { apply commit_unchanged; cbn; [congruence | rewrite Hsched; reflexivity]. }
    cbn. rewrite ?Hge. repeat (split; [reflexivity|]).
    split; [|auto]. destruct (Z.leb_spec (Z.of_nat (length new)) 0); [lia | reflexivity].
  - split.
    { apply commit_unchanged; cbn; [congruence | rewrite Hsched; reflexivity]. }
    cbn. rewrite ?Hge. repeat (split; [reflexivity|]). auto.
Qed.

Lemma syncRefs_idem (s : Metronome num) : syncRefs (syncRefs s) = syncRefs s.
Proof. reflexivity. Qed.

Lemma scheduler_frame r now (s s' : Metronome num) :
  scheduler r now s = Some s' ->
  state s' = state s /\ memo s' = memo s /\
  beatPatternRef (refs s') = beatPatternRef (refs s) /\
  volumeRef (refs s') = volumeRef (refs s) /\
  tapTimesRef (refs s') = tapTimesRef (refs s) /\
  lastTapRef (refs s') = lastTapRef (refs s).
Proof.
  unfold scheduler. destruct (audioContextRef (refs s)) eqn:Hctx.
  - destruct (scheduler_loop _ r now (refs s)) as [rf|] eqn:Hloop; [|discriminate].
    intros [= <-]. destruct (scheduler_loop_beats _ _ _ _ _ Hloop) as (n & -> & _).
    cbn. repeat split; auto using beats_pattern.
    all: clear; induction n; cbn [beats]; [reflexivity|]; rewrite <- IHn;
      generalize (beats r n (refs s)); intros rf; destruct rf; unfold beat, nextNote, scheduleNote; cbn;
      repeat match goal with
             | |- context [if ?b then _ else _] => destruct b
             | |- context [match ?x with _ => _ end] => destruct x
             end; reflexivity.
  - intros [= <-]. repeat split.
Qed.


Lemma clearPendingTimer_state (s : Metronome num) : state (clearPendingTimer s) = state s.
Proof. apply clearPendingTimer_frame. Qed.

Lemma clearPendingTimer_refs (s : Metronome num) : refs (clearPendingTimer s) = refs s.
Proof. apply clearPendingTimer_frame. Qed.

Lemma clearPendingTimer_memo (s : Metronome num) : memo (clearPendingTimer s) = memo s.
Proof. apply clearPendingTimer_frame. Qed.

Lemma syncRefs_fixed (s : Metronome num) :
  beatPatternRef (refs s) = beatPattern (state s) ->
  volumeRef (refs s) = volume (state s) ->
  syncRefs s = s.
Proof.
  destruct s as [st rf m h]. destruct rf. cbn. intros -> ->. reflexivity.
Qed.

Lemma Render_eqb_eq a b : Render_eqb a b = true -> a = b.
Proof.
  destruct a, b. unfold Render_eqb. cbn. intros Heq.
  apply andb_true_iff in Heq. destruct Heq as [Hb Hm].
  apply Z.eqb_eq in Hb. apply Bool.eqb_prop in Hm. congruence.
Qed.

(** What a render leaves behind: the memoised dependencies are those of the
    state, and the pattern and volume refs hold the state's values. *)
Lemma commit_settled now (s s' : Metronome num) :
  commit now s = Some s' ->
  m_isPlaying (memo s') = isPlaying (state s') /\
  m_scheduler (memo s') = current s' /\
  beatPatternRef (refs s') = beatPattern (state s') /\
  volumeRef (refs s') = volume (state s').
Proof.
  unfold commit. cbv zeta.
  destruct (negb (Bool.eqb (isPlaying (state s)) (m_isPlaying (memo s)))) eqn:Hp;
    destruct (negb (Render_eqb (current s) (m_scheduler (memo s)))) eqn:Hs;
    cbn [orb andb];
    destruct (isPlaying (state s)) eqn:Hplaying; cbn [negb].
  all: lazymatch goal with
       | |- scheduler _ _ _ = _ -> _ =>
           intros Hsched; destruct (scheduler_frame _ _ _ _ Hsched)
             as (Hstate & Hmemo & Hpat & Hvol & _);
           rewrite Hmemo, Hpat, Hvol; unfold current; rewrite Hstate;
           destruct (clearPendingTimer_frame (syncRefs s)) as (Hr & Hst & _);
           cbn [memo state refs with_refs set_memo m_isPlaying m_scheduler];
           rewrite Hst; cbn; unfold arm;
           destruct (audioContextRef _); cbn; rewrite ?Hr; cbn; rewrite ?Hplaying; auto
       | |- Some (clearPendingTimer _) = _ -> _ =>
           intros [= <-]; unfold current;
           repeat (rewrite ?clearPendingTimer_state, ?clearPendingTimer_refs,
                     ?clearPendingTimer_memo;
                   cbn [state refs memo set_memo with_state with_refs]);
           cbn; unfold current; cbn; rewrite ?Hplaying; auto
       | |- _ =>
           intros [= <-]; apply negb_false_iff in Hp, Hs;
           apply Bool.eqb_prop in Hp; apply Render_eqb_eq in Hs;
           cbn; unfold current in *; cbn; rewrite <- ?Hp, <- ?Hs, ?Hplaying; auto
       end.
Qed.

(** A render that follows no change of state does nothing: rendering twice
    is rendering once, and in particular restarts nothing. *)
Theorem commit_twice now now' (s s' : Metronome num) :
  commit now s = Some s' -> commit now' s' = Some s'.
Proof.
  intros Hcommit. destruct (commit_settled _ _ _ Hcommit) as (Hp & Hs & Hpat & Hvol).
  rewrite (commit_unchanged now' s' Hp Hs). f_equal. now apply syncRefs_fixed.
Qed.


(** Pausing: the render that follows the click on a playing component
    cancels the pending timer and clears the highlight; it leaves the
    cursor, the queue of notes and everything already handed to the audio
    context as they are, and from then on a timer callback finds nothing to
    do. *)
Theorem pause_cancels_timer_only now (s : Metronome num) :
  playing s ->
  exists s',
    commit now (onPlayClick s) = Some s' /\
    stopped s' /\
    activeBeatIndex (state s') = Int (-1) /\
    nextNoteTimeRef (refs s') = nextNoteTimeRef (refs s) /\
    currentBeatIndexRef (refs s') = currentBeatIndexRef (refs s) /\
    notesQueue (refs s') = notesQueue (refs s) /\
    audioContextRef (refs s') = audioContextRef (refs s) /\
    forall now', tick now' s' = Some s'.
Proof.
  intros (Hplaying & Hmemo & Hsched & Hrun).
  assert (Hidle : pendingTimers (host (clearPendingTimer
            (with_state (setActiveBeatIndex (Int (-1))) (syncRefs (onPlayClick s))))) = []).
  { apply (clearPendingTimer_running (current s)).
    destruct Hrun as [Hctx (id & Htimer & Hpending)]. split; [exact Hctx|].
    exists id. split; assumption. }
  eexists. split.
  - unfold commit. cbn [onPlayClick with_state state memo set_isPlaying isPlaying].
    rewrite Hplaying, Hmemo. cbn [negb Bool.eqb andb orb]. reflexivity.
  - cbv zeta. split; [|split; [|split; [|split; [|split; [|split]]]]].
    + split; [|split].
      * rewrite clearPendingTimer_state. cbn. rewrite clearPendingTimer_state. cbn.
        now rewrite Hplaying.
      * rewrite clearPendingTimer_memo. reflexivity.
      * apply clearPendingTimer_idle. cbn [host set_memo]. exact Hidle.
    + rewrite clearPendingTimer_state. cbn. rewrite clearPendingTimer_state. reflexivity.
    + rewrite clearPendingTimer_refs. cbn. rewrite clearPendingTimer_refs. reflexivity.
    + rewrite clearPendingTimer_refs. cbn. rewrite clearPendingTimer_refs. reflexivity.
    + rewrite clearPendingTimer_refs. cbn. rewrite clearPendingTimer_refs. reflexivity.
    + rewrite clearPendingTimer_refs. cbn. rewrite clearPendingTimer_refs. reflexivity.
    + intros now'. unfold tick. rewrite clearPendingTimer_idle; [reflexivity|].
      cbn [host set_memo]. exact Hidle.
Qed.

(** A change of volume rendered during playback restarts nothing: the
    cursor, the queue and the pending timer stay as they are and the volume
    ref takes the new value, which the next click that sounds is scaled
    by. *)
Theorem volume_change_is_live now value (s : Metronome num) :
  playing s ->
  commit now (onVolumeChange value s) = Some (syncRefs (onVolumeChange value s)) /\
  volumeRef (refs (syncRefs (onVolumeChange value s))) = value /\
  nextNoteTimeRef (refs (syncRefs (onVolumeChange value s))) = nextNoteTimeRef (refs s) /\
  currentBeatIndexRef (refs (syncRefs (onVolumeChange value s))) = currentBeatIndexRef (refs s) /\
  notesQueue (refs (syncRefs (onVolumeChange value s))) = notesQueue (refs s) /\
  host (syncRefs (onVolumeChange value s)) = host s /\
  forall r t i ctx slot,
    r_isMuted r = false ->
    audioContextRef (refs s) = Some ctx ->
    js_get (beatPattern (state s)) i = Some slot ->
    slot <> Mute ->
    exists osc,
      audioContextRef (scheduleNote r t i (refs (syncRefs (onVolumeChange value s))))
        = Some {| oscillators := oscillators ctx ++ [osc] |} /\
      gain osc = mul (match slot with Accent => of_Z 1 | _ => lit 6 10 end) value.
Proof.
  intros (Hplaying & Hmemo & Hsched & _).
  split; [apply commit_unchanged; cbn; [congruence | rewrite Hsched; reflexivity]|].
  cbn [syncRefs onVolumeChange refs with_refs with_state state setVolume volume set_volumeRef
       set_beatPatternRef volumeRef nextNoteTimeRef currentBeatIndexRef notesQueue host
       beatPattern].
  repeat (split; [reflexivity|]).
  intros r t i ctx slot Hmuted Hctx Hslot Hsound.
  unfold scheduleNote.
  cbn [set_notesQueue set_volumeRef set_beatPatternRef audioContextRef beatPatternRef
       volumeRef notesQueue].
  rewrite Hmuted, Hctx.
  assert (Hin : index_ge i (length (beatPattern (state s))) = false).
  { destruct i as [z|]; [|reflexivity]. cbn in Hslot |- *.
    destruct (z <? 0)%Z eqn:Hneg; [discriminate|].
    assert (Hsome : nth_error (beatPattern (state s)) (Z.to_nat z) <> None) by congruence.
    apply nth_error_Some in Hsome. apply Z.leb_gt. lia. }
  rewrite Hin, Hslot. destruct slot; [congruence | ..]; eexists; split; reflexivity.
Qed.


Lemma draw_loop_prefix currentTime (queue : list (ScheduledNote num)) active :
  exists due rest,
    queue = due ++ rest /\
    Forall (fun note => ltb (time note) currentTime = true) due /\
    match rest with
    | [] => True
    | note :: _ => ltb (time note) currentTime = false
    end /\
    draw_loop currentTime queue active = (rest, last (map beatIndex due) active).
Proof.
  revert active. induction queue as [|note queue IH]; intros active.
  - exists [], []. repeat split. constructor.
  - cbn [draw_loop]. destruct (ltb (time note) currentTime) eqn:Hdue.
    + destruct (IH (beatIndex note)) as (due & rest & -> & Hall & Hrest & ->).
      exists (note :: due), rest. repeat split; auto.
      cbn [map]. now rewrite last_cons.
    + exists [], (note :: queue). repeat split; auto.
Qed.

(** An animation frame takes from the front of the queue the notes whose
    onset is before the clock, in order and up to the first that is not (a
    note whose onset equals the clock stays), and the last one taken
    becomes the highlighted beat; with nothing due the highlight stays.
    Without an audio context, or when the last render was not playing, a
    frame changes nothing. *)
Theorem draw_takes_due_prefix currentTime (s : Metronome num) :
  (m_isPlaying (memo s) = true ->
   audioContextRef (refs s) <> None ->
   exists due rest,
     notesQueue (refs s) = due ++ rest /\
     Forall (fun note => ltb (time note) currentTime = true) due /\
     match rest with
     | [] => True
     | note :: _ => ltb (time note) currentTime = false
     end /\
     notesQueue (refs (draw currentTime s)) = rest /\
     activeBeatIndex (state (draw currentTime s))
       = last (map beatIndex due) (activeBeatIndex (state s)) /\
     nextNoteTimeRef (refs (draw currentTime s)) = nextNoteTimeRef (refs s) /\
     host (draw currentTime s) = host s) /\
  (m_isPlaying (memo s) = false \/ audioContextRef (refs s) = None ->
   draw currentTime s = s).
Proof.
  split.
  - intros Hplaying Hctx. unfold draw. rewrite Hplaying.
    destruct (audioContextRef (refs s)); [|congruence].
    destruct (draw_loop_prefix currentTime (notesQueue (refs s)) (activeBeatIndex (state s)))
      as (due & rest & Hqueue & Hdue & Hrest & ->).
    exists due, rest. cbn. auto 10.
  - intros [Hstopped|Hctx]; unfold draw.
    + now rewrite Hstopped.
    + rewrite Hctx. now destruct (m_isPlaying (memo s)).
Qed.

Lemma scheduleNote_sounding r t i (rf : Refs num) :
  exists new,
    sounding (scheduleNote r t i rf) = sounding rf ++ new /\
    (length new <= 1)%nat /\
    (r_isMuted r = true -> new = []) /\
    Forall (fun osc => startAt osc = t /\ stopAt osc = add t (lit 5 100)) new.
Proof.
  destruct rf as [pat ctx next idx tid q tapsl lastTap vol].
  unfold scheduleNote, sounding; cbn.
  destruct (r_isMuted r); [exists []; rewrite app_nil_r; cbn; auto|].
  destruct ctx as [ctx|]; [|exists []; cbn; auto using Forall_nil with arith].
  cbn. destruct (index_ge i (length pat));
    [exists []; rewrite app_nil_r; cbn; repeat split; auto; discriminate|].
  destruct (js_get pat i) as [[]|]; cbn.
  1: exists []; rewrite app_nil_r; cbn; repeat split; auto; discriminate.
  all: eexists [_]; cbn; repeat split; auto; try discriminate.
Qed.

Lemma beat_sounding r (rf : Refs num) :
  exists new,
    sounding (beat r rf) = sounding rf ++ new /\
    (length new <= 1)%nat /\
    (r_isMuted r = true -> new = []) /\
    Forall (fun osc => startAt osc = nextNoteTimeRef rf /\
                       stopAt osc = add (nextNoteTimeRef rf) (lit 5 100)) new.
Proof.
  destruct (scheduleNote_sounding r (nextNoteTimeRef rf) (currentBeatIndexRef rf) rf)
    as (new & Hnew & Hrest).
  exists new. split; [|exact Hrest]. rewrite <- Hnew. reflexivity.
Qed.

(** Nothing sounds that was not queued: over any number of turns of the
    scheduler's loop, each oscillator handed to the audio context starts at
    the onset of a note queued in those turns and stops 50 ms later; there
    are no more oscillators than notes, and none at all when the render is
    muted, though the notes are queued all the same. *)
Theorem sounds_are_queued_notes r n (rf : Refs num) :
  exists new,
    sounding (beats r n rf) = sounding rf ++ new /\
    (length new <= n)%nat /\
    length (scheduled rf (beats r n rf)) = n /\
    (r_isMuted r = true -> new = []) /\
    Forall (fun osc =>
              exists note, In note (scheduled rf (beats r n rf)) /\
                           startAt osc = time note /\
                           stopAt osc = add (time note) (lit 5 100)) new.
Proof.
  assert (Hsched : forall m, scheduled rf (beats r m rf)
                             = map (fun k => note_of (beats r k rf)) (seq 0 m)).
  { intros m. rewrite <- (scheduled_beats r m (timerIDRef (beats r m rf))).
    now rewrite set_timerIDRef_same. }
  induction n as [|n (new & Hnew & Hlen & _ & Hmuted & Hall)].
  - exists []. rewrite Hsched. cbn [beats]. rewrite app_nil_r. cbn. repeat split; auto.
  - cbn [beats]. destruct (beat_sounding r (beats r n rf)) as (one & Hone & Hlen1 & Hm1 & Hall1).
    exists (new ++ one). rewrite Hone, Hnew, app_assoc.
    split; [reflexivity|]. split; [rewrite length_app; lia|].
    change (beat r (beats r n rf)) with (beats r (S n) rf).
    rewrite !Hsched in *. split; [now rewrite length_map, length_seq|].
    split; [intros Hm; now rewrite (Hmuted Hm), (Hm1 Hm)|].
    apply Forall_app. split.
    + eapply Forall_impl; [|exact Hall]. cbn beta. intros osc (note & Hin & Hstart).
      exists note. split; [|exact Hstart]. rewrite seq_S, map_app. apply in_or_app. now left.
    + eapply Forall_impl; [|exact Hall1]. cbn beta. intros osc [Hstart Hstop].
      exists (note_of (beats r n rf)). split; [|split; assumption].
      rewrite seq_S, map_app. apply in_or_app. right. now left.
Qed.


Lemma arm_taps now (rf : Refs num) : tapTimesRef (arm now rf) = tapTimesRef rf.
Proof. unfold arm. now destruct (audioContextRef rf). Qed.

Lemma beat_index_range r (rf : Refs num) z :
  (1 <= length (beatPatternRef rf) <= 12)%nat ->
  currentBeatIndexRef rf = Int z -> (0 <= z < 12)%Z ->
  exists z', currentBeatIndexRef (beat r rf) = Int z' /\ (0 <= z' < 12)%Z.
Proof.
  intros Hlen Hidx Hz. rewrite beat_index, Hidx. cbn [advance].
  destruct (js_mod_in_bounds (z + 1) (length (beatPatternRef rf))) as [-> Hbound]; [lia..|].
  eexists. split; [reflexivity | lia].
Qed.

Lemma beats_index_range r n (rf : Refs num) z :
  (1 <= length (beatPatternRef rf) <= 12)%nat ->
  currentBeatIndexRef rf = Int z -> (0 <= z < 12)%Z ->
  exists z', currentBeatIndexRef (beats r n rf) = Int z' /\ (0 <= z' < 12)%Z.
Proof.
  intros Hlen Hidx Hz. induction n as [|n (z' & Hidx' & Hz')]; cbn [beats]; [eauto|].
  apply (beat_index_range r _ z'); [now rewrite beats_pattern | assumption..].
Qed.

Lemma scheduler_wellFormed r now (s s' : Metronome num) :
  scheduler r now s = Some s' -> wellFormed s -> wellFormed s'.
Proof.
  intros Hsched (Hbpm & Hpat & Href & Hholes & Hholes' & Htaps & z & Hidx & Hz).
  destruct (scheduler_frame _ _ _ _ Hsched) as (Hstate & _ & Hpat' & _ & Htaps' & _).
  unfold wellFormed. rewrite Hstate, Hpat', Htaps'. repeat (split; [assumption|]).
  revert Hsched. unfold scheduler. destruct (audioContextRef (refs s)).
  - destruct (scheduler_loop _ r now (refs s)) as [rf|] eqn:Hloop; [|discriminate].
    intros [= <-]. destruct (scheduler_loop_beats _ _ _ _ _ Hloop) as (n & -> & _).
    cbn. now apply (beats_index_range r n (refs s) z).
  - intros [= <-]. eauto.
Qed.

Lemma handleTap_frame now (s : Metronome num) :
  beatPattern (state (handleTap now s)) = beatPattern (state s) /\
  beatPatternRef (refs (handleTap now s)) = beatPatternRef (refs s) /\
  currentBeatIndexRef (refs (handleTap now s)) = currentBeatIndexRef (refs s).
Proof.
  unfold handleTap. cbn [refs with_refs tapTimesRef set_tapTimesRef set_lastTapRef].
  destruct (1 <? length _)%nat; [|cbn; auto].
  destruct (estimate _) as [z|]; [|cbn; auto].
  destruct ((30 <=? z)%Z && (z <=? 300)%Z); cbn; auto.
Qed.

Lemma handleTap_wellFormed now (s : Metronome num) : wellFormed s -> wellFormed (handleTap now s).
Proof.
  intros (Hbpm & Hpat & Href & Hholes & Hholes' & Htaps & Hidx).
  destruct (handleTap_frame now s) as (Hp & Hr & Hi).
  destruct (handleTap_refs now s) as [Ht _].
  unfold wellFormed. rewrite Hp, Hr, Hi, Ht.
  split; [|split; [|split; [|split; [|split; [|split]]]]]; auto.
  - rewrite handleTap_bpm. cbv zeta. destruct (1 <? length _)%nat; [|exact Hbpm].
    destruct (estimate _) as [z|]; [|exact Hbpm].
    destruct (30 <=? z)%Z eqn:Hlo, (z <=? 300)%Z eqn:Hhi; cbn [andb]; try exact Hbpm.
    apply Z.leb_le in Hlo, Hhi. lia.
  - now apply retain_length.
Qed.

Lemma commit_wellFormed now (s s' : Metronome num) :
  commit now s = Some s' -> wellFormed s -> wellFormed s'.
Proof.
  intros Hcommit (Hbpm & Hpat & Href & Hholes & Hholes' & Htaps & z & Hidx & Hz).
  revert Hcommit.
  assert (Harmed : forall rest : Metronome num,
            refs rest = refs (syncRefs s) -> state rest = state s ->
            wellFormed (with_refs (arm now) rest)).
  { intros rest Hrefs Hstate. unfold wellFormed.
    cbn [refs with_refs state]. rewrite Hstate.
    destruct (arm_cursor now (refs rest)) as (_ & -> & -> & _). rewrite Hrefs.
    cbn [syncRefs refs with_refs beatPatternRef set_volumeRef set_beatPatternRef].
    repeat (split; [assumption|]). split.
    - rewrite arm_taps. exact Htaps.
    - exists 0%Z. split; [reflexivity | lia]. }
  unfold commit. cbv zeta.
  destruct (negb (Bool.eqb (isPlaying (state s)) (m_isPlaying (memo s))));
    destruct (negb (Render_eqb (current s) (m_scheduler (memo s))));
    cbn [orb andb]; destruct (isPlaying (state s)); cbn [negb].
  all: lazymatch goal with
       | |- scheduler _ _ _ = _ -> _ =>
           intros Hsched; apply (scheduler_wellFormed _ _ _ _ Hsched);
           apply Harmed; cbn [refs state set_memo];
           [apply clearPendingTimer_refs | rewrite clearPendingTimer_state; reflexivity]
       | |- _ =>
           intros [= <-]; unfold wellFormed;
           repeat (rewrite ?clearPendingTimer_state, ?clearPendingTimer_refs;
                   cbn [state refs set_memo with_state with_refs]);
           cbn; eauto 10
       end.
Qed.

Lemma handle_wellFormed e (s s' : Metronome num) :
  offered s e -> handle e s = Some s' -> wellFormed s -> wellFormed s'.
Proof.
  intros Hwidget Hhandle Hwf.
  pose proof Hwf as (Hbpm & Hpat & Href & Hholes & Hholes' & Htaps & z & Hidx & Hz).
  destruct e; cbn [handle] in Hhandle; try (injection Hhandle as <-).
  - unfold wellFormed. cbn. eauto 10.
  - unfold wellFormed. cbn. eauto 10.
  - unfold wellFormed. cbn in *. split; [lia | eauto 10].
  - unfold wellFormed. cbn. eauto 10.
  - cbn [offered] in Hwidget. unfold wellFormed. cbn.
    rewrite cycleAt_length by exact Hwidget.
    repeat (split; [assumption|]). split; [now apply cycleAt_no_hole | eauto 10].
  - assert (Hbound : (1 <= length (beatPattern (state (changeTimeSignature delta s))) <= 12)%nat)
      by (destruct (changeTimeSignature_length delta s); lia).
    pose proof (changeTimeSignature_no_hole delta s Hholes) as Hnew.
    revert Hbound Hnew. unfold changeTimeSignature. cbv zeta.
    destruct (index_ge _ _); unfold wellFormed; cbn; intros Hbound Hnew.
    + repeat (split; [assumption|]). exists 0%Z. split; [reflexivity | lia].
    + eauto 10.
  - now apply handleTap_wellFormed.
  - now apply (commit_wellFormed now s).
  - revert Hhandle. unfold tick. destruct (pendingTimers (host s)) as [|[id r] rest].
    + now intros [= <-].
    + intros Hsched. apply (scheduler_wellFormed _ _ _ _ Hsched). exact Hwf.
  - unfold draw. destruct (m_isPlaying (memo s)); [|exact Hwf].
    destruct (audioContextRef (refs s)); [|exact Hwf].
    destruct (draw_loop _ _ _). unfold wellFormed. cbn. eauto 10.
Qed.

(** Whatever the user does through the widgets that are on screen (the
    tempo slider delivers 30 to 240, a slot button exists for each index of
    the pattern) and whenever timers and frames fire, the component stays
    well formed: the tempo is within [30, 300], the pattern and its ref hold
    between 1 and 12 beats and no hole, at most four taps are retained, and
    the cursor's index is an integer from 0 to 11, never [NaN]. *)
Theorem widgets_keep_wellFormed events (s' : Metronome num) :
  fromWidgets events initial ->
  run events initial = Some s' ->
  wellFormed s'.
Proof.
  assert (Hinit : wellFormed (initial : Metronome num)).
  { unfold wellFormed. cbn. repeat (split; [lia|]).
    split; [intuition discriminate|]. split; [intuition discriminate|].
    split; [lia|]. exists 0%Z. split; [reflexivity | lia]. }
  revert Hinit. generalize (initial : Metronome num) as s.
  induction events as [|e events IH]; intros s Hwf Hwidgets; cbn [run].
  - now intros [= <-].
  - cbn [fromWidgets] in Hwidgets. destruct Hwidgets as [He Hrest].
    destruct (handle e s) as [s1|] eqn:Hhandle; [|discriminate].
    apply (IH s1); [|exact Hrest]. now apply (handle_wellFormed e s).
Qed.

End Handlers.

Section ExactExtras.

Implicit Types (s : Metronome Q) (rf : Refs Q) (now : Q).

Lemma secondsPerBeat_at_least r :
  (0 < r_bpm r <= 300)%Z -> 1 # 5 <= (secondsPerBeat r : Q).
Proof.
  intros Hbpm. unfold secondsPerBeat. cbn [of_Z div QNumber].
  assert (0 < inject_Z (r_bpm r)) by (change 0 with (inject_Z 0); rewrite <- Zlt_Qlt; lia).
  assert (inject_Z (r_bpm r) <= 300)
    by (change 300 with (inject_Z 300); rewrite <- Zle_Qle; lia).
  apply Qle_shift_div_l; [assumption|]. q_consts. lra.
Qed.

(** Pressing play on a stopped component, at a tempo within range, queues
    exactly one note at once, beat 0 with its onset 50 ms from now, leaves
    the cursor one beat later at the next index, takes over the state's
    pattern, and arms one timer. *)
Theorem play_queues_first_beat now s :
  stopped s ->
  (30 <= bpm (state s) <= 300)%Z ->
  exists s',
    start now s = Some s' /\
    playing s' /\
    scheduled (refs s) (refs s') = [{| time := add now (lit 5 100); beatIndex := Int 0 |}] /\
    nextNoteTimeRef (refs s') == now + (5 # 100) + 60 / inject_Z (bpm (state s)) /\
    currentBeatIndexRef (refs s') = advance (length (beatPattern (state s))) (Int 0) /\
    beatPatternRef (refs s') = beatPattern (state s) /\
    pendingTimers (host s') = [(nextTimerID (host s), current s)].
Proof.
  intros Hstopped Hbpm.
  destruct (start_window now s Hstopped ltac:(lia))
    as (s' & n & Hstart & Hrefs & Hplay & Hcur & Hn & Hlow & Hup & Hin).
  destruct (arm_cursor now (refs (syncRefs s))) as (Hnext & Hidx & Hpat & Hqueue).
  pose proof (secondsPerBeat_at_least (current s) ltac:(cbn; lia)) as Hspb.
  assert (n = 1%nat) as ->.
  { destruct n as [|[|n]]; [lia | reflexivity | exfalso].
    specialize (Hin 1%nat ltac:(lia)). cbn [beats] in Hin.
    rewrite beat_time, Hnext in Hin. q_consts. lra. }
  exists s'. split; [exact Hstart|]. split; [exact Hplay|].
  rewrite Hrefs. unfold scheduled.
  cbn [beats notesQueue nextNoteTimeRef currentBeatIndexRef beatPatternRef set_timerIDRef].
  rewrite beat_queue, beat_time, beat_index, beat_pattern, Hnext, Hidx, Hpat, Hqueue.
  cbn [syncRefs refs with_refs notesQueue beatPatternRef set_volumeRef set_beatPatternRef].
  rewrite skipn_app, skipn_all, Nat.sub_diag. cbn [skipn app].
  split; [reflexivity|]. split; [q_consts; reflexivity|].
  split; [reflexivity|]. split; [reflexivity|].
  destruct Hplay as (_ & _ & _ & _ & id & Hid & Hpending).
  rewrite Hrefs in Hid. cbn in Hid. injection Hid as <-. now rewrite Hpending, Hcur.
Qed.

(** A timer callback that comes no later than one beat after the previous
    one queues at most one note: the note of the cursor when its onset is
    inside the window, none otherwise. *)
Theorem tick_queues_at_most_one r now prev s :
  running r s ->
  (0 < r_bpm r)%Z ->
  prev + scheduleAheadTime <= nextNoteTimeRef (refs s) ->
  now - prev <= secondsPerBeat r ->
  exists s',
    tick now s = Some s' /\
    scheduled (refs s) (refs s') =
      if ltb (nextNoteTimeRef (refs s)) (add now scheduleAheadTime)
      then [note_of (refs s)] else [].
Proof.
  intros Hrun Hpos Hprev Hlate.
  destruct (tick_window r now s Hrun Hpos)
    as (s' & n & Htick & Hrefs & _ & _ & _ & Hlow & Hin & _).
  exists s'. split; [exact Htick|]. rewrite Hrefs, scheduled_beats. cbn [add QNumber].
  destruct n as [|[|n]].
  - rewrite Hrefs in Hlow. cbn [beats nextNoteTimeRef set_timerIDRef] in Hlow.
    apply Qltb_false in Hlow. now rewrite Hlow.
  - specialize (Hin 0%nat ltac:(lia)). cbn [beats] in Hin. apply Qltb_true in Hin.
    now rewrite Hin.
  - exfalso. specialize (Hin 1%nat ltac:(lia)). cbn [beats] in Hin.
    rewrite beat_time in Hin. cbn [add QNumber] in *. lra.
Qed.

(** The notes a run of timer callbacks queues come in strictly increasing
    order of onset, and the cursor is left past all of them. *)
Theorem onsets_strictly_increase r clock s s' :
  running r s ->
  (0 < r_bpm r)%Z ->
  ticks clock s = Some s' ->
  (forall i j a b,
     (i < j)%nat ->
     nth_error (scheduled (refs s) (refs s')) i = Some a ->
     nth_error (scheduled (refs s) (refs s')) j = Some b ->
     time a < time b) /\
  Forall (fun note => time note < nextNoteTimeRef (refs s')) (scheduled (refs s) (refs s')).
Proof.
  intros Hrun Hpos Hticks. pose proof (secondsPerBeat_pos r Hpos) as Hspb.
  destruct (ticks_beats _ _ _ _ Hrun Hticks) as (n & t & -> & _).
  rewrite scheduled_beats. cbn [nextNoteTimeRef set_timerIDRef].
  assert (Hmono : forall i j, (i < j)%nat ->
            nextNoteTimeRef (beats r i (refs s)) < nextNoteTimeRef (beats r j (refs s))).
  { intros i j Hij. rewrite !beats_time.
    assert (inject_Z (Z.of_nat i) < inject_Z (Z.of_nat j)) by (rewrite <- Zlt_Qlt; lia).
    apply Qplus_lt_r. apply Qmult_lt_compat_r; assumption. }
  split.
  - intros i j a b Hij. rewrite !nth_error_map, !nth_error_seq.
    destruct (i <? n)%nat; [|discriminate]. destruct (j <? n)%nat; [|discriminate].
    cbn [option_map Nat.add]. intros [= <-] [= <-]. cbn [time note_of]. now apply Hmono.
  - apply Forall_forall. intros note Hnote. apply in_map_iff in Hnote.
    destruct Hnote as (k & <- & Hk). apply in_seq in Hk. cbn [time note_of].
    apply Hmono. lia.
Qed.

Lemma arm_sounding now rf : sounding (arm now rf) = sounding rf.
Proof.
  unfold arm, sounding. destruct (audioContextRef rf) eqn:Hctx; cbn; now rewrite ?Hctx.
Qed.

Lemma commit_mute_eq now s :
  playing s ->
  commit now (onMuteClick s) =
  scheduler (current (onMuteClick s)) now
    (with_refs (arm now)
       (set_memo {| m_scheduler := current (onMuteClick s); m_isPlaying := true |}
          (clearPendingTimer (syncRefs (onMuteClick s))))).
Proof.
  intros (Hplaying & Hmemo & Hsched & _). unfold commit.
  cbn [onMuteClick with_state state memo setIsMuted isPlaying].
  rewrite Hplaying, Hmemo, Hsched. unfold Render_eqb, current.
  cbn [r_bpm r_isMuted state onMuteClick with_state setIsMuted bpm isMuted Bool.eqb negb andb orb].
  rewrite Z.eqb_refl. now destruct (isMuted (state s)).
Qed.

(** The mute button restarts the scheduler too: toggling it during playback,
    at a tempo within range, replaces the pending timer, queues a note for
    beat 0 50 ms from now and leaves the cursor one beat after it, whatever
    it was before; when the toggle mutes, that first note is queued but
    hands nothing to the audio context. *)
Theorem mute_toggle_restarts now s :
  playing s ->
  (30 <= bpm (state s) <= 300)%Z ->
  exists s',
    commit now (onMuteClick s) = Some s' /\
    isMuted (state s') = negb (isMuted (state s)) /\
    notesQueue (refs s') =
      notesQueue (refs s) ++ [{| time := add now (lit 5 100); beatIndex := Int 0 |}] /\
    nextNoteTimeRef (refs s') == now + (5 # 100) + 60 / inject_Z (bpm (state s)) /\
    currentBeatIndexRef (refs s') = advance (length (beatPattern (state s))) (Int 0) /\
    pendingTimers (host s') =
      [(nextTimerID (host s),
        {| r_bpm := bpm (state s); r_isMuted := negb (isMuted (state s)) |})] /\
    (isMuted (state s) = false -> sounding (refs s') = sounding (refs s)).
Proof.
  intros Hplay Hrange. rewrite (commit_mute_eq now s Hplay).
  destruct Hplay as (_ & _ & _ & Hrun).
  set (s1 := onMuteClick s). set (r := current s1).
  set (s0 := with_refs (arm now) _).
  assert (Hrefs0 : refs s0 = arm now (refs (syncRefs s1))).
  { subst s0. cbn [refs with_refs set_memo]. now rewrite clearPendingTimer_refs. }
  assert (Hpending0 : pendingTimers (host s0) = []).
  { subst s0. cbn [host with_refs set_memo].
    apply (clearPendingTimer_running (current s)). exact Hrun. }
  assert (Hid0 : nextTimerID (host s0) = nextTimerID (host s)).
  { subst s0. cbn [host with_refs set_memo].
    now destruct (clearPendingTimer_frame (syncRefs s1)) as (_ & _ & _ & ->). }
  assert (Hstate0 : state s0 = state s1).
  { subst s0. cbn [state with_refs set_memo]. now rewrite clearPendingTimer_state. }
  assert (Hctx : audioContextRef (refs s0) <> None) by (rewrite Hrefs0; apply arm_context).
  assert (Hpos : (0 < r_bpm r)%Z) by (cbn; lia).
  destruct (scheduler_window r now s0 Hctx Hpos)
    as (s' & n & Hsched & Hrefs & Hstate & _ & Htimers & Hlow & Hin & _).
  rewrite Hrefs0, Hid0 in *. rewrite Hpending0 in Htimers.
  destruct (arm_cursor now (refs (syncRefs s1))) as (Hnext & Hidx & Hpat & Hqueue).
  pose proof (secondsPerBeat_at_least r ltac:(cbn; lia)) as Hspb.
  assert (n = 1%nat) as ->.
  { destruct n as [|[|n]]; [exfalso | reflexivity | exfalso].
    - rewrite Hrefs in Hlow. cbn [beats nextNoteTimeRef set_timerIDRef] in Hlow.
      rewrite Hnext in Hlow. q_consts. lra.
    - specialize (Hin 1%nat ltac:(lia)). cbn [beats] in Hin.
      rewrite beat_time, Hnext in Hin. q_consts. lra. }
  exists s'. split; [exact Hsched|]. split; [rewrite Hstate, Hstate0; reflexivity|].
  rewrite Hrefs.
  cbn [beats notesQueue nextNoteTimeRef currentBeatIndexRef timerIDRef set_timerIDRef].
  rewrite beat_queue, beat_time, beat_index, Hnext, Hidx, Hpat, Hqueue.
  split; [reflexivity|]. split; [q_consts; reflexivity|].
  split; [reflexivity|]. split; [exact Htimers|].
  intros Hmuted. unfold sounding at 1. cbn [audioContextRef set_timerIDRef].
  destruct (beat_sounding r (arm now (refs (syncRefs s1)))) as (new & Hnew & _ & Hnone & _).
  unfold sounding in Hnew at 1. rewrite Hnew, Hnone by (cbn; now rewrite Hmuted).
  rewrite app_nil_r, arm_sounding. reflexivity.
Qed.

Lemma secondsPerBeat_neg r : (r_bpm r < 0)%Z -> (secondsPerBeat r : Q) < 0.
Proof.
  unfold secondsPerBeat. cbn [of_Z div QNumber]. destruct (r_bpm r); try lia.
  intros _. reflexivity.
Qed.

(** A negative tempo, which no widget delivers, would never let the loop
    end: with the cursor's onset inside the window, every turn moves it
    further back, and no number of turns completes the call. *)
Theorem negative_tempo_never_ends r now s fuel :
  (r_bpm r < 0)%Z ->
  nextNoteTimeRef (refs s) < now + scheduleAheadTime ->
  scheduler_loop fuel r now (refs s) = None.
Proof.
  intros Hneg. apply secondsPerBeat_neg in Hneg. generalize (refs s) as rf.
  induction fuel as [|fuel IH]; intros rf Hbehind; cbn [scheduler_loop]; [reflexivity|].
  replace (ltb (nextNoteTimeRef rf) (add now scheduleAheadTime)) with true
    by (symmetry; apply Qltb_true; exact Hbehind).
  apply IH. rewrite beat_time. cbn [add QNumber] in *. lra.
Qed.

Lemma intervals_cons (a b : Q) l :
  intervals (a :: b :: l) = (b - a) :: intervals (b :: l).
Proof. reflexivity. Qed.

Lemma intervals_telescope : forall l (a acc : Q),
  fold_left Qplus (intervals (a :: l)) acc == acc + (last l a - a).
Proof.
  induction l as [|b l IH]; intros a acc.
  - cbn. lra.
  - rewrite intervals_cons. cbn [fold_left]. rewrite IH, last_cons. lra.
Qed.

Lemma intervals_length (a : Q) l : length (intervals (a :: l)) = length l.
Proof.
  unfold intervals. cbn [tl]. rewrite length_map, length_combine. cbn [length]. lia.
Qed.

(** The tempo estimate depends only on the first and the last retained tap
    and on how many there are: the mean of the intervals between taps is
    the time from first to last divided by the number of intervals. *)
Theorem estimate_first_to_last (a b : Q) l :
  estimate (a :: b :: l) =
  Some (Qfloor (60000 / ((last (b :: l) a - a) / inject_Z (Z.of_nat (S (length l))))
                + (1 # 2))).
Proof.
  unfold estimate. rewrite intervals_length, intervals_cons.
  unfold Math_round, sum. cbn [exact QNumber div of_Z add]. f_equal.
  apply Qfloor_comp. apply Qplus_comp; [|reflexivity].
  apply Qdiv_comp; [reflexivity|]. apply Qdiv_comp; [|reflexivity].
  rewrite (intervals_telescope l b (b - a)), last_cons. lra.
Qed.

End ExactExtras.

(** * The workspace around the metronome *)
Lemma filter_NoDup_map {A B} (f : A -> B) (keep : A -> bool) (l : list A) :
  NoDup (map f l) -> NoDup (map f (filter keep l)).
Proof.
  induction l as [|a l IH]; cbn; [auto|]. intros Hnd. inversion Hnd as [|? ? Hnotin Hrest]; subst.
  destruct (keep a); cbn; [constructor|]; auto.
  intros Hin. apply Hnotin. apply in_map_iff in Hin. destruct Hin as (x & Hx & Hfx).
  apply filter_In in Hfx. apply in_map_iff. exists x. tauto.
Qed.

Lemma firstn_NoDup {A} n (l : list A) : NoDup l -> NoDup (firstn n l).
Proof.
  intros Hnd. rewrite <- (firstn_skipn n l) in Hnd. now apply NoDup_app_remove_r in Hnd.
Qed.

(** Saving a video with a title to a parseable history puts it first,
    removes every older entry with the same id, keeps the others in their
    order, and keeps at most 20 entries; ids that were distinct stay
    distinct.  Without a title nothing is written, and a history that does
    not parse is left as it is: it is never repaired. *)
Theorem saveHistory_most_recent_first videoId videoTitle now history :
  videoTitle <> String.EmptyString ->
  let item := {| id := videoId; title := videoTitle; timestamp := now |} in
  let others := filter (fun h => negb (String.eqb (id h) videoId)) history in
  saveHistory videoId (Some videoTitle) now (Saved history)
    = Saved (firstn 20 (item :: others)) /\
  (length (loadHistory (saveHistory videoId (Some videoTitle) now (Saved history))) <= 20)%nat /\
  hd_error (loadHistory (saveHistory videoId (Some videoTitle) now (Saved history))) = Some item /\
  Forall (fun h => id h <> videoId /\ In h history) others /\
  (NoDup (map id history) ->
   NoDup (map id (loadHistory (saveHistory videoId (Some videoTitle) now (Saved history))))) /\
  saveHistory videoId (Some videoTitle) now Missing = Saved [item] /\
  saveHistory videoId (Some videoTitle) now Corrupt = Corrupt /\
  (forall stored, saveHistory videoId None now stored = stored /\
                  saveHistory videoId (Some String.EmptyString) now stored = stored).
Proof.
  intros Htitle item others.
  assert (Hsave : saveHistory videoId (Some videoTitle) now (Saved history)
                  = Saved (firstn 20 (item :: others))).
  { unfold saveHistory. destruct (String.eqb_spec videoTitle String.EmptyString); [contradiction|].
    cbv zeta. fold item others. f_equal.
    destruct (Nat.ltb_spec 20 (length (item :: others))); [reflexivity|].
    symmetry. now apply firstn_all2. }
  assert (Hothers : Forall (fun h => id h <> videoId /\ In h history) others).
  { apply Forall_forall. intros h Hin. apply filter_In in Hin. destruct Hin as [Hin Hkeep].
    split; [|exact Hin]. apply negb_true_iff in Hkeep. now apply String.eqb_neq. }
  rewrite Hsave. cbn [loadHistory]. repeat split.
  - rewrite length_firstn. lia.
  - exact Hothers.
  - intros Hnd. rewrite <- firstn_map. apply firstn_NoDup. cbn [map id item]. constructor.
    + intros Hin. apply in_map_iff in Hin. destruct Hin as (h & Hid & Hin).
      rewrite Forall_forall in Hothers. now destruct (Hothers h Hin).
    + now apply filter_NoDup_map.
  - unfold saveHistory. now destruct (String.eqb_spec videoTitle String.EmptyString).
  - unfold saveHistory. now destruct (String.eqb_spec videoTitle String.EmptyString).
Qed.

Section Loop.

Lemma Math_max_Q (a b : Q) : a <= Math_max a b /\ b <= Math_max a b /\
  (Math_max a b = a \/ Math_max a b = b).
Proof.
  unfold Math_max. destruct (ltb a b) eqn:Hlt.
  - apply Qltb_true in Hlt. repeat split; auto; lra.
  - apply Qltb_false in Hlt. repeat split; auto; lra.
Qed.

Lemma Math_min_Q (a b : Q) : Math_min a b <= a /\ Math_min a b <= b /\
  (Math_min a b = a \/ Math_min a b = b).
Proof.
  unfold Math_min. destruct (ltb b a) eqn:Hlt.
  - apply Qltb_true in Hlt. repeat split; auto; lra.
  - apply Qltb_false in Hlt. repeat split; auto; lra.
Qed.

(** Dragging either handle of the loop region keeps the region well formed
    (it starts at or after 0, is at least half a second long and ends within
    the video), moves only the handle dragged, and puts it exactly under the
    pointer whenever that leaves the region well formed. *)
Theorem drag_keeps_loop_within (newTime duration : Q) (loop : LoopRegion Q) :
  loopWithin duration loop ->
  loopWithin duration (dragStart newTime duration loop) /\
  loopWithin duration (dragEnd newTime duration loop) /\
  loopEnd (dragStart newTime duration loop) = loopEnd loop /\
  loopStart (dragEnd newTime duration loop) = loopStart loop /\
  (0 <= newTime <= loopEnd loop - (1 # 2) ->
   loopStart (dragStart newTime duration loop) == newTime) /\
  (loopStart loop + (1 # 2) <= newTime <= duration ->
   loopEnd (dragEnd newTime duration loop) == newTime).
Proof.
  intros (Hstart & Hgap & Hend).
  assert (Hpos : ltb (of_Z 0) duration = true) by (apply Qltb_true; q_consts; lra).
  unfold dragStart, dragEnd, loopWithin. rewrite Hpos. cbv zeta.
  cbn [loopStart loopEnd].
  set (safeStart := Math_min newTime (sub (loopEnd loop) (lit 5 10))).
  set (safeEnd := Math_max newTime (add (loopStart loop) (lit 5 10))).
  destruct (Math_min_Q newTime (sub (loopEnd loop) (lit 5 10))) as (Hs1 & Hs2 & Hs3).
  destruct (Math_max_Q newTime (add (loopStart loop) (lit 5 10))) as (He1 & He2 & He3).
  fold safeStart in Hs1, Hs2, Hs3. fold safeEnd in He1, He2, He3.
  destruct (Math_max_Q (of_Z 0) safeStart) as (Ha1 & Ha2 & Ha3).
  destruct (Math_max_Q (of_Z 0) (Math_max (of_Z 0) safeStart)) as (Hb1 & Hb2 & Hb3).
  destruct (Math_min_Q duration safeEnd) as (Hc1 & Hc2 & Hc3).
  destruct (Math_min_Q duration (Math_min duration safeEnd)) as (Hd1 & Hd2 & Hd3).
  set (start1 := Math_max (of_Z 0) safeStart) in *.
  set (start2 := Math_max (of_Z 0) start1) in *.
  set (end1 := Math_min duration safeEnd) in *.
  set (end2 := Math_min duration end1) in *.
  clearbody start2 end2. clearbody start1 end1. clearbody safeStart safeEnd.
  q_consts.
  assert (Hstart2 : start2 <= loopEnd loop - (1 # 2)).
  { destruct Hb3 as [->| ->]; [lra|]. destruct Ha3 as [->| ->]; lra. }
  assert (Hend2 : loopStart loop + (1 # 2) <= end2).
  { destruct Hd3 as [->| ->]; [lra|]. destruct Hc3 as [->| ->]; lra. }
  repeat split; try lra.
  - intros [Hlo Hhi].
    assert (safeStart == newTime) by (destruct Hs3 as [->| ->]; lra).
    apply Qle_antisym; [|lra].
    destruct Hb3 as [->| ->]; [lra|]. destruct Ha3 as [->| ->]; lra.
  - intros [Hlo Hhi].
    assert (safeEnd == newTime) by (destruct He3 as [->| ->]; lra).
    apply Qle_antisym; [lra|].
    destruct Hd3 as [->| ->]; [lra|]. destruct Hc3 as [->| ->]; lra.
Qed.

(** The time under the pointer is within the video, wherever the pointer
    is: its offset is clamped to the timeline before it is scaled. *)
Theorem pointerTime_within (clientX left width duration : Q) :
  0 < width -> 0 <= duration ->
  0 <= pointerTime clientX left width duration <= duration.
Proof.
  intros Hwidth Hduration. unfold pointerTime. cbv zeta.
  destruct (Math_min_Q (sub clientX left) width) as (_ & Hm & _).
  destruct (Math_max_Q (of_Z 0) (Math_min (sub clientX left) width)) as (Hz & Hx & Hcase).
  set (offsetX := Math_max (of_Z 0) (Math_min (sub clientX left) width)) in *.
  clearbody offsetX.
  assert (Hoff : 0 <= offsetX <= width).
  { q_consts. split; [lra|]. destruct Hcase as [->| ->]; lra. }
  cbn [mul div QNumber].
  assert (Hratio : 0 <= offsetX / width <= 1).
  { split.
    - apply Qle_shift_div_l; [exact Hwidth | lra].
    - apply Qle_shift_div_r; [exact Hwidth | lra]. }
  split.
  - apply Qmult_le_0_compat; lra.
  - rewrite <- (Qmult_1_l duration) at 2. apply Qmult_le_compat_r; lra.
Qed.

End Loop.

(** * Further concrete runs *)
Lemma handleBeatClick_cycles_one_slot_witness :
  (1 < length (beatPattern (state (initial : Metronome Q))))%nat /\
  0%nat <> 1%nat /\
  nth_error (beatPattern (state (initial : Metronome Q))) 1 <> Some Hole /\
  beatPattern (state (handleBeatClick 1 (initial : Metronome Q)))
    = [Accent; Accent; Normal; Normal] /\
  length (beatPattern (state (handleBeatClick 1 (initial : Metronome Q)))) = 4%nat /\
  nth_error (beatPattern (state (handleBeatClick 1 (initial : Metronome Q)))) 0
    = nth_error (beatPattern (state (initial : Metronome Q))) 0 /\
  beatPattern (state (handleBeatClick 1 (handleBeatClick 1 (handleBeatClick 1
                                                               (initial : Metronome Q)))))
    = [Accent; Normal; Normal; Normal] /\
  (length (beatPattern (state (initial : Metronome Q))) <= 6)%nat /\
  beatPattern (state (handleBeatClick 6 (initial : Metronome Q)))
    = [Accent; Normal; Normal; Normal; Hole; Hole; Normal].
Proof.
  assert (Hin : (1 < length (beatPattern (state (initial : Metronome Q))))%nat) by (cbn; lia).
  assert (Hne : 0%nat <> 1%nat) by discriminate.
  assert (Hslot : nth_error (beatPattern (state (initial : Metronome Q))) 1 <> Some Hole)
    by discriminate.
  assert (Hout : (length (beatPattern (state (initial : Metronome Q))) <= 6)%nat) by (cbn; lia).
  split; [exact Hin|]. split; [exact Hne|]. split; [exact Hslot|]. split; [reflexivity|].
  destruct (proj1 (handleBeatClick_cycles_one_slot 1 (initial : Metronome Q)) Hin)
    as (Hlen & _ & Hother & Hthrice).
  split; [exact Hlen|]. split; [exact (Hother 0%nat Hne)|]. split; [exact (Hthrice Hslot)|].
  split; [exact Hout|].
  exact (proj1 (proj1 (proj2 (handleBeatClick_cycles_one_slot 6 (initial : Metronome Q))) Hout)).
Defined.

Lemma changeTimeSignature_bounds_witness :
  (1 <= length (beatPattern (state (initial : Metronome Q))) <= 12)%nat /\
  (0 < 1)%Z /\
  (1 <= length (beatPattern (state (changeTimeSignature 1 (initial : Metronome Q)))) <= 12)%nat /\
  beatPattern (state (changeTimeSignature 1 (initial : Metronome Q)))
    = [Accent; Normal; Normal; Normal; Normal].
Proof.
  assert (Hlen : (1 <= length (beatPattern (state (initial : Metronome Q))) <= 12)%nat)
    by (cbn; lia).
  assert (Hpos : (0 < 1)%Z) by lia.
  split; [exact Hlen|]. split; [exact Hpos|].
  split.
  - exact (proj1 (changeTimeSignature_bounds 1 (initial : Metronome Q)) Hlen).
  - exact (proj1 (proj2 (changeTimeSignature_bounds 1 (initial : Metronome Q))) Hpos).
Defined.

Lemma changeTimeSignature_rendered_witness :
  playing played_one_second /\
  beatPattern (state played_one_second) <> [] /\
  commit 1 (changeTimeSignature (-1) played_one_second)
    = Some (syncRefs (changeTimeSignature (-1) played_one_second)) /\
  currentBeatIndexRef (refs played_one_second) = Int 3 /\
  currentBeatIndexRef (refs (syncRefs (changeTimeSignature (-1) played_one_second))) = Int 0.
Proof.
  assert (Hpat : beatPattern (state played_one_second) <> []) by discriminate.
  split; [exact playing_played_one_second|]. split; [exact Hpat|].
  destruct (changeTimeSignature_rendered 1 (-1) played_one_second
              playing_played_one_second Hpat) as (Hcommit & _ & Hidx & _).
  split; [exact Hcommit|]. split; [reflexivity | exact Hidx].
Defined.

Lemma commit_twice_witness :
  commit 0 (onPlayClick (initial : Metronome Q)) = Some started /\
  commit 1 started = Some started.
Proof.
  assert (Hcommit : commit 0 (onPlayClick (initial : Metronome Q)) = Some started)
    by (vm_compute; reflexivity).
  split; [exact Hcommit|].
  exact (commit_twice 0 1 (onPlayClick initial) started Hcommit).
Defined.

Lemma pause_cancels_timer_only_witness :
  playing played_one_second /\
  exists s',
    commit 1 (onPlayClick played_one_second) = Some s' /\
    stopped s' /\
    notesQueue (refs s') = notesQueue (refs played_one_second).
Proof.
  split; [exact playing_played_one_second|].
  destruct (pause_cancels_timer_only 1 played_one_second playing_played_one_second)
    as (s' & Hcommit & Hstopped & _ & _ & _ & Hqueue & _).
  exists s'. repeat split; try assumption; apply Hstopped.
Defined.

Lemma volume_change_is_live_witness :
  playing played_one_second /\
  commit 1 (onVolumeChange (3 # 10) played_one_second)
    = Some (syncRefs (onVolumeChange (3 # 10) played_one_second)) /\
  volumeRef (refs (syncRefs (onVolumeChange (3 # 10) played_one_second))) = 3 # 10.
Proof.
  split; [exact playing_played_one_second|].
  destruct (volume_change_is_live 1 (3 # 10) played_one_second playing_played_one_second)
    as (Hcommit & Hvolume & _).
  split; assumption.
Defined.

Lemma draw_takes_due_prefix_witness :
  m_isPlaying (memo played_two_seconds) = true /\
  audioContextRef (refs played_two_seconds) <> None /\
  queued played_two_seconds
    = [(1 # 20, Int 0); (11 # 20, Int 1); (21 # 20, Int 2); (31 # 20, Int 3); (41 # 20, Int 0)] /\
  queued (draw (21 # 20) played_two_seconds)
    = [(21 # 20, Int 2); (31 # 20, Int 3); (41 # 20, Int 0)] /\
  exists due rest,
    notesQueue (refs played_two_seconds) = due ++ rest /\
    notesQueue (refs (draw (21 # 20) played_two_seconds)) = rest /\
    activeBeatIndex (state (draw (21 # 20) played_two_seconds))
      = last (map beatIndex due) (activeBeatIndex (state played_two_seconds)).
Proof.
  assert (Hplaying : m_isPlaying (memo played_two_seconds) = true) by reflexivity.
  assert (Hctx : audioContextRef (refs played_two_seconds) <> None) by discriminate.
  split; [exact Hplaying|]. split; [exact Hctx|].
  split; [reflexivity|]. split; [reflexivity|].
  destruct (proj1 (draw_takes_due_prefix (21 # 20) played_two_seconds) Hplaying Hctx)
    as (due & rest & Hqueue & _ & _ & Hrest & Hactive & _).
  exists due, rest. repeat split; assumption.
Defined.

Lemma sounds_are_queued_notes_witness :
  r_isMuted {| r_bpm := 120; r_isMuted := true |} = true /\
  exists new,
    sounding (beats {| r_bpm := 120; r_isMuted := true |} 8 (refs started))
      = sounding (refs started) ++ new /\
    length (scheduled (refs started)
              (beats {| r_bpm := 120; r_isMuted := true |} 8 (refs started))) = 8%nat /\
    new = [].
Proof.
  assert (Hmuted : r_isMuted {| r_bpm := 120; r_isMuted := true |} = true) by reflexivity.
  split; [exact Hmuted|].
  destruct (sounds_are_queued_notes {| r_bpm := 120; r_isMuted := true |} 8 (refs started))
    as (new & Hnew & _ & Hlen & Hnone & _).
  exists new. split; [exact Hnew|]. split; [exact Hlen | exact (Hnone Hmuted)].
Defined.

Lemma widgets_keep_wellFormed_witness :
  fromWidgets [BeatClick 1; Commit 0; BeatClick 1; Commit 0; PlayClick; Commit 0]
    (initial : Metronome Q) /\
  run [BeatClick 1; Commit 0; BeatClick 1; Commit 0; PlayClick; Commit 0] initial
    = Some second_slot_muted /\
  beatPattern (state second_slot_muted) = [Accent; Mute; Normal; Normal] /\
  wellFormed second_slot_muted.
Proof.
  assert (Hwidgets : fromWidgets
            [BeatClick 1; Commit 0; BeatClick 1; Commit 0; PlayClick; Commit 0]
            (initial : Metronome Q)) by (cbn; repeat split; lia).
  assert (Hrun : run [BeatClick 1; Commit 0; BeatClick 1; Commit 0; PlayClick; Commit 0] initial
                 = Some second_slot_muted) by (vm_compute; reflexivity).
  split; [exact Hwidgets|]. split; [exact Hrun|]. split; [reflexivity|].
  exact (widgets_keep_wellFormed _ second_slot_muted Hwidgets Hrun).
Defined.

Lemma play_queues_first_beat_witness :
  stopped (initial : Metronome Q) /\
  (30 <= bpm (state (initial : Metronome Q)) <= 300)%Z /\
  exists s',
    start 0 initial = Some s' /\
    scheduled (refs initial) (refs s') = [{| time := add 0 (lit 5 100); beatIndex := Int 0 |}].
Proof.
  assert (Hrange : (30 <= bpm (state (initial : Metronome Q)) <= 300)%Z) by (cbn; lia).
  split; [exact stopped_initial|]. split; [exact Hrange|].
  destruct (play_queues_first_beat 0 initial stopped_initial Hrange)
    as (s' & Hstart & _ & Hsched & _).
  exists s'. split; assumption.
Defined.

Lemma tick_queues_at_most_one_witness :
  running {| r_bpm := 120; r_isMuted := false |} played_one_second /\
  (0 < r_bpm {| r_bpm := 120; r_isMuted := false |})%Z /\
  1 + scheduleAheadTime <= nextNoteTimeRef (refs played_one_second) /\
  (3 # 2) - 1 <= secondsPerBeat {| r_bpm := 120; r_isMuted := false |} /\
  exists s',
    tick (3 # 2) played_one_second = Some s' /\
    scheduled (refs played_one_second) (refs s') = [note_of (refs played_one_second)].
Proof.
  assert (Hrun : running {| r_bpm := 120; r_isMuted := false |} played_one_second)
    by apply playing_played_one_second.
  assert (Hpos : (0 < r_bpm {| r_bpm := 120; r_isMuted := false |})%Z) by (cbn; lia).
  assert (Hprev : 1 + scheduleAheadTime <= nextNoteTimeRef (refs played_one_second))
    by (vm_compute; discriminate).
  assert (Hlate : (3 # 2) - 1 <= secondsPerBeat {| r_bpm := 120; r_isMuted := false |})
    by (vm_compute; discriminate).
  repeat (split; [assumption|]).
  exact (tick_queues_at_most_one {| r_bpm := 120; r_isMuted := false |} (3 # 2) 1
           played_one_second Hrun Hpos Hprev Hlate).
Defined.

Lemma onsets_strictly_increase_witness :
  running {| r_bpm := 120; r_isMuted := false |} started /\
  (0 < r_bpm {| r_bpm := 120; r_isMuted := false |})%Z /\
  ticks (nominalClock 0 200) started = Some played_five_seconds /\
  Forall (fun note => time note < nextNoteTimeRef (refs played_five_seconds))
         (scheduled (refs started) (refs played_five_seconds)).
Proof.
  assert (Hrun : running {| r_bpm := 120; r_isMuted := false |} started)
    by apply playing_started.
  assert (Hpos : (0 < r_bpm {| r_bpm := 120; r_isMuted := false |})%Z) by (cbn; lia).
  assert (Hticks : ticks (nominalClock 0 200) started = Some played_five_seconds)
    by (vm_compute; reflexivity).
  repeat (split; [assumption|]).
  exact (proj2 (onsets_strictly_increase {| r_bpm := 120; r_isMuted := false |}
                  (nominalClock 0 200) started played_five_seconds Hrun Hpos Hticks)).
Defined.

Lemma mute_toggle_restarts_witness :
  playing played_one_second /\
  (30 <= bpm (state played_one_second) <= 300)%Z /\
  cursor played_one_second = (31 # 20, Int 3) /\
  exists s',
    commit 1 (onMuteClick played_one_second) = Some s' /\
    currentBeatIndexRef (refs s') = Int 1 /\
    sounding (refs s') = sounding (refs played_one_second).
Proof.
  assert (Hrange : (30 <= bpm (state played_one_second) <= 300)%Z) by (cbn; lia).
  assert (Hmuted : isMuted (state played_one_second) = false) by reflexivity.
  split; [exact playing_played_one_second|]. split; [exact Hrange|]. split; [reflexivity|].
  destruct (mute_toggle_restarts 1 played_one_second playing_played_one_second Hrange)
    as (s' & Hcommit & _ & _ & _ & Hidx & _ & Hsilent).
  exists s'. split; [exact Hcommit|]. split; [exact Hidx | exact (Hsilent Hmuted)].
Defined.

Lemma negative_tempo_never_ends_witness :
  (r_bpm {| r_bpm := -60; r_isMuted := false |} < 0)%Z /\
  nextNoteTimeRef (refs started) < 1 + scheduleAheadTime /\
  scheduler_loop 1000 {| r_bpm := -60; r_isMuted := false |} 1 (refs started) = None.
Proof.
  assert (Hneg : (r_bpm {| r_bpm := -60; r_isMuted := false |} < 0)%Z) by (cbn; lia).
  assert (Hbehind : nextNoteTimeRef (refs started) < 1 + scheduleAheadTime)
    by (vm_compute; reflexivity).
  split; [exact Hneg|]. split; [exact Hbehind|].
  exact (negative_tempo_never_ends {| r_bpm := -60; r_isMuted := false |} 1 started 1000
           Hneg Hbehind).
Defined.

Lemma saveHistory_most_recent_first_witness :
  "Song B"%string <> String.EmptyString /\
  NoDup (map id [{| id := "aaaaaaaaaaa"%string; title := "Song A"%string; timestamp := 1 |};
                 {| id := "bbbbbbbbbbb"%string; title := "Song B"%string; timestamp := 2 |}]) /\
  loadHistory
    (saveHistory "bbbbbbbbbbb"%string (Some "Song B"%string) 3
       (Saved [{| id := "aaaaaaaaaaa"%string; title := "Song A"%string; timestamp := 1 |};
               {| id := "bbbbbbbbbbb"%string; title := "Song B"%string; timestamp := 2 |}]))
    = [{| id := "bbbbbbbbbbb"%string; title := "Song B"%string; timestamp := 3 |};
       {| id := "aaaaaaaaaaa"%string; title := "Song A"%string; timestamp := 1 |}] /\
  NoDup (map id
    (loadHistory
       (saveHistory "bbbbbbbbbbb"%string (Some "Song B"%string) 3
          (Saved [{| id := "aaaaaaaaaaa"%string; title := "Song A"%string; timestamp := 1 |};
                  {| id := "bbbbbbbbbbb"%string; title := "Song B"%string; timestamp := 2 |}])))).
Proof.
  assert (Htitle : "Song B"%string <> String.EmptyString) by discriminate.
  assert (Hnd : NoDup (map id [{| id := "aaaaaaaaaaa"%string; title := "Song A"%string; timestamp := 1 |};
                               {| id := "bbbbbbbbbbb"%string; title := "Song B"%string; timestamp := 2 |}])).
  { repeat constructor; cbn; intuition discriminate. }
  split; [exact Htitle|]. split; [exact Hnd|]. split; [reflexivity|].
  exact (proj1 (proj2 (proj2 (proj2 (proj2
           (saveHistory_most_recent_first "bbbbbbbbbbb"%string "Song B"%string 3 _ Htitle))))) Hnd).
Defined.

Lemma drag_keeps_loop_within_witness :
  loopWithin 180 {| loopStart := 0; loopEnd := 10 |} /\
  loopWithin 180 (dragStart 12 180 {| loopStart := 0; loopEnd := 10 |}) /\
  loopStart (dragStart 12 180 {| loopStart := 0; loopEnd := 10 |}) == 19 # 2.
Proof.
  assert (Hloop : loopWithin 180 {| loopStart := 0; loopEnd := 10 |}).
  { unfold loopWithin. cbn. repeat split; discriminate. }
  split; [exact Hloop|].
  split; [|reflexivity].
  exact (proj1 (drag_keeps_loop_within 12 180 {| loopStart := 0; loopEnd := 10 |} Hloop)).
Defined.

Lemma pointerTime_within_witness :
  0 < 800 /\ 0 <= 180 /\
  0 <= pointerTime 1200 100 800 180 <= 180.
Proof.
  assert (Hwidth : 0 < 800) by reflexivity.
  assert (Hduration : 0 <= 180) by discriminate.
  split; [exact Hwidth|]. split; [exact Hduration|].
  exact (pointerTime_within 1200 100 800 180 Hwidth Hduration).
Defined.
